(** * The Cayley logo generator (svg/svg.py), embedded and verified

    The program is a straight-line Python script over the svgwrite library: it
    places six ring nodes and two fan nodes, selects the ring edges, saves the
    static drawing, scripts sixteen colour flashes, chains every animation on
    the end of the last one and saves the animated drawing.

    The embedding keeps the script's shape: Python numbers ([Py]), ints and
    binary64 floats with the exceptions of their arithmetic and the C
    library's [cos] and [sin] as a parameter; svgwrite's elements with their
    attribute dictionaries, the object store they live in and the automatic
    ids ([Svg]); and the script itself ([Logo]) as a program of a
    state-and-error monad. *)

From Stdlib Require Import PrimFloat FloatOps SpecFloat.
From Stdlib Require Import ZArith QArith Qabs Qpower String Ascii List Lia Reals Qreals Lra Sorted.
From Stdlib Require Import DecimalString DecimalN DecimalPos.
From stdpp Require Import base option list strings gmap sorting.

Open Scope Z_scope.
Open Scope string_scope.
Open Scope list_scope.
Open Scope nat_scope.

(** ** Python numbers *)
Module Py.

(** Python's [float] is the binary64 format of IEEE 754, and its arithmetic
    rounds to nearest, ties to even: Rocq's primitive [float] with its [+],
    [-], [*] and [/].  These never raise, but for a division by zero. *)

(** The C library of the platform.  [math.cos] and [math.sin] call its [cos]
    and [sin], whose values the language does not fix: they are parameters,
    and what is proved of the script holds for every library.  What is
    assumed of them is what C99 (F.9.1.5, F.9.1.6) asks: a finite argument
    has a finite result, an infinite one the result NaN. *)
Class Libm := {
  libm_cos : float -> float;
  libm_sin : float -> float;
  libm_cos_finite : forall x, is_finite x = true -> is_finite (libm_cos x) = true;
  libm_sin_finite : forall x, is_finite x = true -> is_finite (libm_sin x) = true;
  libm_cos_infinite : forall x, is_infinity x = true -> is_nan (libm_cos x) = true;
  libm_sin_infinite : forall x, is_infinity x = true -> is_nan (libm_sin x) = true
}.

(** A Python number: an [int] or a [float]. *)
Inductive num :=
| Int (z : Z)
| Float (x : float).

(** [float(z)] of an int [z]: the float nearest to [z], ties to even, and
    OverflowError (int too large to convert to float) when that is beyond the
    largest float. *)
Definition float_of_int (z : Z) : option float :=
  let x := SF2Prim (binary_normalize prec emax z 0 false) in
  if is_infinity x then None else Some x.

(** The conversion Python applies to the int operand of a mixed operation
    and to an int formatted with [%f]. *)
Definition to_float (v : num) : option float :=
  match v with
  | Int z => float_of_int z
  | Float x => Some x
  end.

(** [a + b] *)
Definition add (a b : num) : option num :=
  match a, b with
  | Int x, Int y => Some (Int (x + y))
  | _, _ => x ← to_float a; y ← to_float b; Some (Float (x + y)%float)
  end.

(** [a - b] *)
Definition sub (a b : num) : option num :=
  match a, b with
  | Int x, Int y => Some (Int (x - y))
  | _, _ => x ← to_float a; y ← to_float b; Some (Float (x - y)%float)
  end.

(** [a * b] *)
Definition mul (a b : num) : option num :=
  match a, b with
  | Int x, Int y => Some (Int (x * y))
  | _, _ => x ← to_float a; y ← to_float b; Some (Float (x * y)%float)
  end.

(** [a / b] with a float divisor (the only division of the script, [/ 6.0]);
    ZeroDivisionError when the divisor is zero. *)
Definition truediv (a : num) (b : float) : option num :=
  x ← to_float a;
  if (b =? 0)%float then None else Some (Float (x / b)%float).

(** The test CPython's [math] module makes on the result [r] the library
    gave for the argument [x]: ValueError (math domain error) when [r] is NaN
    and [x] is not, or [r] is infinite and [x] finite. *)
Definition domain_error (x r : float) : bool :=
  (is_nan r && negb (is_nan x)) || (is_infinity r && is_finite x).

(** [math.cos(v)] and [math.sin(v)].  By what is assumed of the library the
    test fails on a finite argument ([math_cos_finite]) and fires on an
    infinite one: the exception is that of an infinite argument. *)
Definition math_cos `{Libm} (v : num) : option num :=
  x ← to_float v;
  if is_infinity x then None else Some (Float (libm_cos x)).

Definition math_sin `{Libm} (v : num) : option num :=
  x ← to_float v;
  if is_infinity x then None else Some (Float (libm_sin x)).

(** [math.pi]: the float nearest to pi. *)
Definition math_pi : num := Float 0x1.921fb54442d18p+1.

(** *** ["%0.2f"] *)

(** Decimal digits of a natural number, ["0"] for zero. *)
Definition digits (n : N) : string :=
  NilZero.string_of_uint (N.to_uint n).

(** [q] scaled by 100 and rounded to the nearest integer, ties to even: the
    rounding of C's and Python's [%f], which is applied to the exact value of
    the float. *)
Definition round_hundredths (q : Q) : Z :=
  let scaled := (Z.abs (Qnum q) * 100)%Z in
  let den := Zpos (Qden q) in
  let k := (scaled / den)%Z in
  let r := (scaled mod den)%Z in
  if (2 * r <? den)%Z then k
  else if (den <? 2 * r)%Z then (k + 1)%Z
  else if Z.even k then k else (k + 1)%Z.

(** The magnitude of [q] in decimal, with two digits after the point. *)
Definition decimal_02 (q : Q) : string :=
  let c := round_hundredths q in
  let frac := Z.to_N (c mod 100)%Z in
  digits (Z.to_N (c / 100)%Z) +:+ "."
  +:+ (if (frac <? 10)%N then "0" else "") +:+ digits frac.

(** The rational [m * 2 ^ e]: the magnitude of a finite float of mantissa [m]
    and exponent [e]. *)
Definition magnitude (m : positive) (e : Z) : Q :=
  match e with
  | Zneg p => Zpos m # (2 ^ p)
  | _ => inject_Z (Zpos m * 2 ^ e)
  end.

(** ["%0.2f" % x] of a float [x]: the sign, and the exact value rounded to two
    decimals, or [inf], or [nan]. *)
Definition format_02f (x : float) : string :=
  match Prim2SF x with
  | S754_zero s => (if s then "-" else "") +:+ decimal_02 0
  | S754_infinity s => (if s then "-" else "") +:+ "inf"
  | S754_nan => "nan"
  | S754_finite s m e => (if s then "-" else "") +:+ decimal_02 (magnitude m e)
  end.

(** ["%0.2f" % v] of a number: an int is converted to a float first. *)
Definition percent_02f (v : num) : option string :=
  x ← to_float v; Some (format_02f x).

End Py.

(** ** svgwrite: elements, the drawing, automatic ids *)
Module Svg.
Import Py.

Section Elements.

(** What an attribute or an argument of the library holds. *)
Inductive value :=
| VStr (s : string)
| VNum (n : num)
| VPair (a b : value).

(** A point is a Python pair of numbers. *)
Definition point : Type := num * num.

(** [BaseElement]: a tag name and the [attribs] dictionary.  [e[k] = v] and
    [e[k]] of the library write and read that dictionary. *)
Record element := Element {
  elementname : string;
  attribs : gmap string value
}.

(** Objects are shared by reference: the drawing's element list, [all_lines]
    and [anims] hold the same objects.  A reference is an index of the store. *)
Definition ref := nat.

(** The [Drawing] object: [filename], the [width] and [height] attributes set
    from [size], and the element list [add] appends to. *)
Record drawing := Drawing {
  filename : value;
  width : value;
  height : value;
  elements : list ref
}.

(** What one [save] writes: canvas size and the elements as they are then. *)
Record document := Document {
  doc_width : value;
  doc_height : value;
  doc_elements : list element
}.

(** The state of the run: the object store, [AutoID._nextid], the drawing, the
    script's three global lists, and the files written so far, in order. *)
Record state := State {
  heap : list element;
  nextid : nat;
  dwg : drawing;
  all_lines : list ref;
  circle_elems : list ref;
  anims : list ref;
  files : list (string * document)
}.

(** A computation that threads the state and may raise ([None]): IndexError
    of a list index, KeyError of a missing attribute, OverflowError of an int
    too large for a float. *)
Definition M (A : Type) : Type := state -> option (A * state).

Definition ret {A} (a : A) : M A := fun st => Some (a, st).

Definition bind {A B} (m : M A) (k : A -> M B) : M B :=
  fun st => match m st with
            | Some (a, st') => k a st'
            | None => None
            end.

(** The value of a lookup, or the exception. *)
Definition lift {A} (o : option A) : M A :=
  fun st => match o with Some a => Some (a, st) | None => None end.

Definition get_state : M state := fun st => Some (st, st).
Definition modify (f : state -> state) : M unit := fun st => Some (tt, f st).

(** Field updates of the state. *)
Definition with_heap (h : list element) (st : state) : state :=
  State h (nextid st) (dwg st) (all_lines st) (circle_elems st) (anims st) (files st).
Definition with_nextid (n : nat) (st : state) : state :=
  State (heap st) n (dwg st) (all_lines st) (circle_elems st) (anims st) (files st).
Definition with_dwg (d : drawing) (st : state) : state :=
  State (heap st) (nextid st) d (all_lines st) (circle_elems st) (anims st) (files st).
Definition with_all_lines (l : list ref) (st : state) : state :=
  State (heap st) (nextid st) (dwg st) l (circle_elems st) (anims st) (files st).
Definition with_circle_elems (l : list ref) (st : state) : state :=
  State (heap st) (nextid st) (dwg st) (all_lines st) l (anims st) (files st).
Definition with_anims (l : list ref) (st : state) : state :=
  State (heap st) (nextid st) (dwg st) (all_lines st) (circle_elems st) l (files st).
Definition with_files (l : list (string * document)) (st : state) : state :=
  State (heap st) (nextid st) (dwg st) (all_lines st) (circle_elems st) (anims st) l.

End Elements.

Notation "'let*' x ':=' m 'in' k" := (bind m (fun x => k))
  (at level 10, x name, m at level 100, k at level 200).
Notation "'exec' m 'in' k" := (bind m (fun _ => k))
  (at level 10, m at level 100, k at level 200).

Section Library.

(** [for x in l: body(x)] *)
Fixpoint for_each {A} (l : list A) (body : A -> M unit) : M unit :=
  match l with
  | [] => ret tt
  | x :: l' => exec body x in for_each l' body
  end.

(** [enumerate(l)] *)
Definition enumerate {A} (l : list A) : list (nat * A) :=
  zip (seq 0 (length l)) l.

(** A new object in the store. *)
Definition new (e : element) : M ref :=
  let* st := get_state in
  exec modify (with_heap (heap st ++ [e])) in
  ret (length (heap st)).

(** [e[k]] *)
Definition getitem (r : ref) (k : string) : M value :=
  let* st := get_state in
  let* e := lift (heap st !! r) in
  lift (attribs e !! k).

(** [e[k] = v] *)
Definition setitem (r : ref) (k : string) (v : value) : M unit :=
  let* st := get_state in
  let* e := lift (heap st !! r) in
  modify (with_heap (<[r := Element (elementname e) (<[k := v]> (attribs e))]> (heap st))).

(** [AutoID.next_id()] of svgwrite/utils.py: ["id%d" % _nextid], and the
    counter, which starts at 1, moves on. *)
Definition next_id : M string :=
  let* st := get_state in
  exec modify (with_nextid (S (nextid st))) in
  ret ("id" +:+ digits (N.of_nat (nextid st))).

(** [BaseElement.get_id] of svgwrite/base.py: the element's [id] attribute;
    an element that has none is first given the next automatic id.  The
    script sets no id of its own, so every id is a string; on another value
    the model raises. *)
Definition get_id (r : ref) : M string :=
  let* st := get_state in
  let* e := lift (heap st !! r) in
  match attribs e !! "id" with
  | Some (VStr s) => ret s
  | Some _ => lift None
  | None => let* s := next_id in exec setitem r "id" (VStr s) in ret s
  end.

(** [Drawing.__init__(self, filename="noname.svg", size=("100%", "100%"),
    **extra)] of svgwrite/drawing.py: the first positional parameter is the
    file name, and [size] gives the [width] and [height] attributes. *)
Definition Drawing_init (filename : option value) (size : option (value * value))
  : drawing :=
  let sz := default (VStr "100%", VStr "100%") size in
  Drawing (default (VStr "noname.svg") filename) (fst sz) (snd sz) [].

(** [dwg.add(e)]: appends to the drawing's elements and returns [e]. *)
Definition dwg_add (r : ref) : M ref :=
  let* st := get_state in
  let d := dwg st in
  exec modify (with_dwg (Drawing (filename d) (width d) (height d) (elements d ++ [r]))) in
  ret r.

(** [dwg.line(start, end)] *)
Definition dwg_line (start end_ : point) : M ref :=
  new (Element "line"
         (<["y2" := VNum (snd end_)]> (<["x2" := VNum (fst end_)]>
          (<["y1" := VNum (snd start)]> (<["x1" := VNum (fst start)]> ∅))))).

(** [l.stroke(color, width)] *)
Definition stroke (r : ref) (color : string) (w : num) : M unit :=
  exec setitem r "stroke" (VStr color) in
  setitem r "stroke-width" (VNum w).

(** [dwg.circle(center, r, fill=fill)] *)
Definition dwg_circle (center : point) (r : num) (fill : string) : M ref :=
  new (Element "circle"
         (<["fill" := VStr fill]> (<["r" := VNum r]>
          (<["cy" := VNum (snd center)]> (<["cx" := VNum (fst center)]> ∅))))).

(** [svgwrite.animate.Animate(attributeName, href=element)]: an SVG
    animation names its target by id.  [Set.__init__] calls
    [XLink.set_href(element)] (svgwrite/mixins.py), whose [update_id] stores
    [element.get_iri()], that is ["#" + element.get_id()], as [xlink:href]:
    a target without an id receives one here.  Then [attributeName] is set. *)
Definition Animate (attributeName : string) (href : ref) : M ref :=
  let* a := new (Element "animate" ∅) in
  let* i := get_id href in
  exec setitem a "xlink:href" (VStr ("#" +:+ i)) in
  exec setitem a "attributeName" (VStr attributeName) in
  ret a.

(** The elements of the drawing as they are in the store. *)
Definition resolve (h : list element) (rs : list ref) : option (list element) :=
  mapM (fun r => h !! r) rs.

(** [dwg.saveas(name)]: sets the file name and writes the drawing.  Writing
    asks every animation for its target's id again; each has one by then, so
    the store is left as it is. *)
Definition saveas (name : string) : M unit :=
  let* st := get_state in
  let d := dwg st in
  let* es := lift (resolve (heap st) (elements d)) in
  exec modify (with_dwg (Drawing (VStr name) (width d) (height d) (elements d))) in
  modify (with_files (files st ++ [(name, Document (width d) (height d) es)])).

End Library.
End Svg.

(** ** The script *)
Module Logo.
Import Py Svg.

(** Lines 22-38.  [edge_color] and [fan_color] are first bound to ["#555555"]
    and ["#aa0000"] and rebound to [n] on lines 37-38, before any use. *)
Definition b : string := "#4285F4".
Definition r : string := "#DB4437".
Definition g : string := "#0F9D58".
Definition y : string := "#F4B400".
Definition n : string := "#999999".

Definition center_colors : list string := [b; r; y; b; r; y].
Definition edge_color : string := n.
Definition fan_color : string := n.

Section Script.
Context {Lm : Libm}.

Definition node_radius : num := Int 15.
Definition big_radius : num := Int 50.
Definition fan_dist : num := Int 90.
Definition center : point := (Int 105, Int 65).
Definition edge_stroke : num := Float 2.5.

(** Lines 40-47.  The arithmetic raises when an int operand is too large
    for a float; the loop then ends with that exception. *)
Definition center_list (center : point) (big_r : num) : option (list point) :=
  let '(x, y) := center in
  fold_left
    (fun out i =>
       out ← out;
       a ← (t ← mul (Int 2) math_pi; u ← mul t (Int (Z.of_nat i)); truediv u 6);
       ox ← (c ← math_cos a; d ← mul c big_r; add x d);
       oy ← (s ← math_sin a; d ← mul s big_r; sub y d);
       Some (out ++ [(ox, oy)]))
    (seq 0 6) (Some []).

(** Lines 49-52.  The script's own centre, radius and fan distance are small
    ints: line 50 does not raise, and lines 51-52 are sums of ints, which
    cannot ([globals_computed]); [default] is not reached. *)
Definition cx : num := fst center.
Definition cy : num := snd center.
Definition ring_centers : list point := default [] (center_list center big_radius).
Definition outer_left : point := (default cx (sub cx fan_dist), cy).
Definition outer_right : point := (default cx (add cx fan_dist), cy).

(** [all_lines.append(l)], [circle_elems.append(elem)], [anims.append(a)] *)
Definition all_lines_append (l : ref) : M unit :=
  let* st := get_state in modify (with_all_lines (all_lines st ++ [l])).
Definition circle_elems_append (e : ref) : M unit :=
  let* st := get_state in modify (with_circle_elems (circle_elems st ++ [e])).
Definition anims_append (a : ref) : M unit :=
  let* st := get_state in modify (with_anims (anims st ++ [a])).

(** Lines 57-59 and 60-62, 78-80: a stroked line, drawn and recorded. *)
Definition draw_line (p q : point) : M unit :=
  let* l0 := dwg_line p q in
  let* l := dwg_add l0 in
  exec stroke l edge_color edge_stroke in
  all_lines_append l.

(** Lines 66-77: the guards of the ring loop, each a [continue]. *)
Definition skip (i j : nat) : bool :=
  if (j <? i) || (i =? j) then true
  else if i mod 3 =? j mod 3 then true
  else if (i mod 3 =? 1) && (j mod 3 =? 2) then true
  else if (j mod 3 =? 1) && (i mod 3 =? 2) then true
  else if (i =? 0) && (j =? 3) then true
  else if (i =? 3) && (j =? 0) then true
  else false.

(** Lines 64-80. *)
Definition ring_edges (ring : list point) : M unit :=
  for_each (enumerate ring) (fun '(i, c) =>
    for_each (enumerate ring) (fun '(j, d) =>
      if skip i j then ret tt else draw_line c d)).

(** Lines 82-85. *)
Definition ring_circles (ring : list point) : M unit :=
  for_each (enumerate ring) (fun '(i, c) =>
    let* fill := lift (center_colors !! i) in
    let* c0 := dwg_circle c node_radius fill in
    let* elem := dwg_add c0 in
    circle_elems_append elem).

(** Lines 53-88: everything drawn before the first save; the result is
    [(left_circle, right_circle)]. *)
Definition draw : M (ref * ref) :=
  let* left := lift (ring_centers !! 3) in
  let* right := lift (ring_centers !! 0) in
  exec draw_line outer_left left in
  exec draw_line outer_right right in
  exec ring_edges ring_centers in
  exec ring_circles ring_centers in
  let* l0 := dwg_circle outer_left node_radius fan_color in
  let* left_circle := dwg_add l0 in
  let* r0 := dwg_circle outer_right node_radius fan_color in
  let* right_circle := dwg_add r0 in
  ret (left_circle, right_circle).

(** Lines 92-113.  [start] is a number; formatting an int converts it to a
    float, as adding [1.0] to it does, and either raises when the int is too
    large. *)
Definition flash (element : ref) (orig_color : string) (start : num) (is_line : bool)
  : M ref :=
  let prop := if is_line then "stroke" else "fill" in
  let* a := Animate prop element in
  exec setitem a "from" (VStr orig_color) in
  exec setitem a "to" (VStr g) in
  let* s := lift (percent_02f start) in
  exec setitem a "begin" (VStr ("+" +:+ s +:+ "s")) in
  exec setitem a "dur" (VStr "1.0s") in
  let* _a := dwg_add a in
  exec anims_append a in
  let* a := Animate prop element in
  exec setitem a "from" (VStr g) in
  exec setitem a "to" (VStr orig_color) in
  let* later := lift (add start (Float 1)) in
  let* s := lift (percent_02f later) in
  exec setitem a "begin" (VStr ("+" +:+ s +:+ "s")) in
  exec setitem a "dur" (VStr "1.2s") in
  let* _a := dwg_add a in
  exec anims_append a in
  ret a.

(** [all_lines[k]] *)
Definition line_at (k : nat) : M ref :=
  let* st := get_state in lift (all_lines st !! k).

(** [flash(all_lines[k], n, start, True)] *)
Definition flash_line (k : nat) (start : num) : M ref :=
  let* l := line_at k in flash l n start true.

(** The positions of [all_lines] the script flashes, in call order. *)
Definition flashed_lines : list nat := [0; 7; 3; 9; 5; 1; 0; 6; 4; 8; 2; 1].

(** Lines 116-131; the result is [final]. *)
Definition animate (left_circle right_circle : ref) : M ref :=
  let* first := flash left_circle n (Int 0) false in
  let* _f := flash_line 0 (Float 0.5) in
  let* _f := flash_line 7 (Float 1.0) in
  let* _f := flash_line 3 (Float 1.5) in
  let* _f := flash_line 9 (Float 1.0) in
  let* _f := flash_line 5 (Float 1.5) in
  let* _f := flash_line 1 (Float 2.0) in
  let* _f := flash right_circle n (Float 2.5) false in
  let* _f := flash left_circle n (Float 3.5) false in
  let* _f := flash_line 0 (Float 4.0) in
  let* _f := flash_line 6 (Float 4.5) in
  let* _f := flash_line 4 (Float 5.0) in
  let* _f := flash_line 8 (Float 4.5) in
  let* _f := flash_line 2 (Float 5.0) in
  let* _f := flash_line 1 (Float 5.5) in
  flash right_circle n (Float 6.0) false.

(** A string operand of [+]; anything else raises. *)
Definition as_str (v : value) : option string :=
  match v with VStr s => Some s | _ => None end.

(** Line 134, the body of the loop. *)
Definition chain_begin (final anim : ref) : M unit :=
  let* v1 := getitem anim "begin" in
  let* b1 := lift (as_str v1) in
  let* i := get_id final in
  let* v2 := getitem anim "begin" in
  let* b2 := lift (as_str v2) in
  setitem anim "begin" (VStr (b1 +:+ "; " +:+ i +:+ ".end" +:+ b2)).

(** Lines 133-134. *)
Definition chain (final : ref) : M unit :=
  let* st := get_state in
  for_each (anims st) (chain_begin final).

(** Line 19 and the empty lists of lines 56, 82 and 91. *)
Definition init : state :=
  State [] 1
        (Drawing_init (Some (VPair (VNum (Int 210)) (VNum (Int 130)))) None)
        [] [] [] [].

(** The whole script; the result is [final]. *)
Definition main : M ref :=
  let* circles := draw in
  exec saveas "cayley.svg" in
  let* final := animate (fst circles) (snd circles) in
  exec chain final in
  exec saveas "cayley_active.svg" in
  ret final.

End Script.
End Logo.

(** ** What the claims speak of *)
Module View.
Import Py Svg Logo.

(** The edge rule in the specification's words: the four skip rules, tried
    in order. *)
Definition spec_skip (i j : nat) : bool :=
  if i =? j then true
  else if i mod 3 =? j mod 3 then true
  else if ((i mod 3 =? 1) && (j mod 3 =? 2)) || ((i mod 3 =? 2) && (j mod 3 =? 1)) then true
  else if (i =? 0) && (j =? 3) then true
  else false.

(** The index pairs of a ring of [m] nodes on which the ring loop reaches
    its last three lines, in the order the loop visits them. *)
Definition ring_pairs (m : nat) : list (nat * nat) :=
  filter (fun p => skip (fst p) (snd p) = false) (list_prod (seq 0 m) (seq 0 m)).

(** The lexicographic order on index pairs. *)
Definition lex_lt (p q : nat * nat) : Prop :=
  fst p < fst q \/ (fst p = fst q /\ snd p < snd q).

(** One call of lines 116-131: the target and the start time. *)
Inductive target :=
| LeftCircle
| RightCircle
| Line (k : nat).

(** Lines 116-131 as data. *)
Definition flash_calls : list (target * num) :=
  [ (LeftCircle, Int 0); (Line 0, Float 0.5); (Line 7, Float 1.0);
    (Line 3, Float 1.5); (Line 9, Float 1.0); (Line 5, Float 1.5);
    (Line 1, Float 2.0); (RightCircle, Float 2.5); (LeftCircle, Float 3.5);
    (Line 0, Float 4.0); (Line 6, Float 4.5); (Line 4, Float 5.0);
    (Line 8, Float 4.5); (Line 2, Float 5.0); (Line 1, Float 5.5);
    (RightCircle, Float 6.0) ].

(** The positions of [all_lines] the calls index. *)
Definition line_indices (cs : list (target * num)) : list nat :=
  omap (fun c => match fst c with Line k => Some k | _ => None end) cs.

(** [s] occurs in [t]. *)
Definition contains (s t : string) : Prop :=
  exists pre post, t = pre +:+ s +:+ post.

(** The exact value of a float: the rational [(-1)^s * m * 2^e] of a finite
    float of sign [s], mantissa [m] and exponent [e]; none for an infinity or
    a NaN. *)
Definition exact (x : float) : option Q :=
  match Prim2SF x with
  | S754_zero _ => Some 0%Q
  | S754_finite s m e =>
      Some ((if s then -1 else 1) * (inject_Z (Zpos m) * Qpower 2 e))%Q
  | _ => None
  end.

(** The time in seconds a number stands for. *)
Definition time_of (v : num) : Q :=
  match v with
  | Int z => inject_Z z
  | Float x => default 0%Q (exact x)
  end.

(** Reading a time back from a [begin] value ["+D.dds"] or ["+-D.dds"], [D]
    one or more decimal digits and [dd] two: the number the numeral denotes. *)
Definition digit (c : ascii) : option N :=
  let k := N_of_ascii c in
  if ((48 <=? k) && (k <=? 57))%N then Some (k - 48)%N else None.

Fixpoint natural (s : string) (acc : N) : option N :=
  match s with
  | EmptyString => Some acc
  | String c s' => d ← digit c; natural s' (acc * 10 + d)%N
  end.

Fixpoint before_dot (s : string) : option (string * string) :=
  match s with
  | EmptyString => None
  | String c s' =>
      if Ascii.eqb c "." then Some (EmptyString, s')
      else p ← before_dot s'; Some (String c (fst p), snd p)
  end.

Definition seconds (s : string) : option Q :=
  match s with
  | String c0 r =>
      if Ascii.eqb c0 "+" then
        let neg := match r with String c _ => Ascii.eqb c "-" | _ => false end in
        let r1 := if neg then match r with String _ r' => r' | _ => r end else r in
        p ← before_dot r1;
        match fst p, snd p with
        | String _ _, String d1 (String d2 (String c3 EmptyString)) =>
            if Ascii.eqb c3 "s" then
              i ← natural (fst p) 0;
              a ← digit d1;
              b ← digit d2;
              Some ((if neg then -1 else 1) * (Z.of_N (i * 100 + a * 10 + b) # 100))%Q
            else None
        | _, _ => None
        end
      else None
  | EmptyString => None
  end.

(** Exactly one of [i] and [j] is a multiple of 3. *)
Definition one_multiple_of_3 (i j : nat) : Prop :=
  (i mod 3 = 0 /\ j mod 3 <> 0) \/ (i mod 3 <> 0 /\ j mod 3 = 0).

Section Elements.
Context {Lm : Libm}.

(** The line the script draws from [p] to [q]: lines 57-58, 60-61, 78-79. *)
Definition drawn_line (p q : point) : element :=
  Element "line"
    (<["stroke-width" := VNum edge_stroke]> (<["stroke" := VStr edge_color]>
     (<["y2" := VNum (snd q)]> (<["x2" := VNum (fst q)]>
      (<["y1" := VNum (snd p)]> (<["x1" := VNum (fst p)]> ∅)))))).

(** The circle of radius [node_radius] at [c]. *)
Definition drawn_circle (c : point) (fill : string) : element :=
  Element "circle"
    (<["fill" := VStr fill]> (<["r" := VNum node_radius]>
     (<["cy" := VNum (snd c)]> (<["cx" := VNum (fst c)]> ∅)))).

(** An animation step as [flash] leaves it. *)
Definition step (prop href from to begin dur : string) : element :=
  Element "animate"
    (<["dur" := VStr dur]> (<["begin" := VStr begin]>
     (<["to" := VStr to]> (<["from" := VStr from]>
      (<["attributeName" := VStr prop]> (<["xlink:href" := VStr href]> ∅)))))).

(** Ring node [i]. *)
Definition ring (i : nat) : point := nth i ring_centers (Int 0, Int 0).

(** The string attribute [k] of [e]. *)
Definition attr (e : element) (k : string) : option string :=
  match attribs e !! k with Some (VStr s) => Some s | _ => None end.

(** [e] without its [id]. *)
Definition without_id (e : element) : element :=
  Element (elementname e) (delete "id" (attribs e)).

Definition is_animate (e : element) : bool := String.eqb (elementname e) "animate".

(** The animation entries of a written file. *)
Definition animations (d : document) : list element :=
  filter (fun e => is_animate e = true) (doc_elements d).

(** Some attribute of [e] is the colour [c]. *)
Definition uses_colour (c : string) (e : element) : bool :=
  existsb (fun kv => match snd kv with
                     | VStr s => String.eqb s c
                     | _ => false
                     end) (map_to_list (attribs e)).

(** The id [get_id] answers for an element [e] in state [st]. *)
Definition id_of (st : state) (e : element) : string :=
  match attribs e !! "id" with
  | Some (VStr s) => s
  | _ => "id" +:+ digits (N.of_nat (nextid st))
  end.

(** The state [get_id] leaves: an element without an id has received one. *)
Definition identified (st : state) (r : ref) (e : element) : state :=
  match attribs e !! "id" with
  | Some _ => st
  | None =>
      with_heap (<[r := Element (elementname e)
                          (<["id" := VStr (id_of st e)]> (attribs e))]> (heap st))
                (with_nextid (S (nextid st)) st)
  end.

(** The id attribute, where there is one, is a string. *)
Definition id_ok (e : element) : Prop :=
  forall v, attribs e !! "id" = Some v -> exists s, v = VStr s.

(** [final] is an element of [st] whose id is, or will be, [fid]. *)
Definition final_ok (final : ref) (fid : string) (st : state) : Prop :=
  exists ef, heap st !! final = Some ef /\ id_ok ef /\ id_of st ef = fid.

(** The state [flash(el, c, start, is_line)] leaves when [el] refers to [e]
    and [start] is, as a float, [x]: the target identified, the two steps at
    the end of the store, and their references at the end of the drawing and
    of [anims]. *)
Definition flashed (st : state) (el : ref) (e : element) (c : string) (x : float)
    (is_line : bool) : state :=
  let st1 := identified st el e in
  let href := "#" +:+ id_of st e in
  let prop := if is_line then "stroke" else "fill" in
  let a := length (heap st) in
  State (heap st1 ++ [step prop href c g ("+" +:+ format_02f x +:+ "s") "1.0s";
                      step prop href g c ("+" +:+ format_02f (x + 1) +:+ "s") "1.2s"])
        (nextid st1)
        (Drawing (filename (dwg st)) (width (dwg st)) (height (dwg st))
                 (elements (dwg st) ++ [a; S a]))
        (all_lines st) (circle_elems st) (anims st ++ [a; S a]) (files st).

(** The state after drawing the lines [ls], in order, from [st]: each is a
    new object, added to the drawing and to [all_lines]. *)
Definition with_lines (st : state) (ls : list (point * point)) : state :=
  let new_refs := seq (length (heap st)) (length ls) in
  State (heap st ++ map (fun pq => drawn_line (fst pq) (snd pq)) ls)
        (nextid st)
        (Drawing (filename (dwg st)) (width (dwg st)) (height (dwg st))
                 (elements (dwg st) ++ new_refs))
        (all_lines st ++ new_refs) (circle_elems st) (anims st) (files st).

(** The endpoints of the lines one pass of the inner ring loop draws for the
    outer node [(i, c)], and those of the whole ring loop. *)
Definition row_lines (i : nat) (c : point) (l : list (nat * point))
  : list (point * point) :=
  omap (fun jd => if skip i (fst jd) then None else Some (c, snd jd)) l.

Definition loop_lines (ring : list point) : list (point * point) :=
  flat_map (fun ic => row_lines (fst ic) (snd ic) (enumerate ring)) (enumerate ring).

(** The endpoints of the edge between the nodes [fst p] and [snd p] of [ring]. *)
Definition ends (ring : list point) (p : nat * nat) : point * point :=
  (nth (fst p) ring (Int 0, Int 0), nth (snd p) ring (Int 0, Int 0)).

(** The call [c] of [flash_calls]. *)
Definition call (left_circle right_circle : ref) (c : target * num) : M ref :=
  match fst c with
  | LeftCircle => flash left_circle n (snd c) false
  | RightCircle => flash right_circle n (snd c) false
  | Line k => flash_line k (snd c)
  end.

(** The calls in order; the result is what the last one returned. *)
Fixpoint calls (left_circle right_circle : ref) (cs : list (target * num)) (last : ref)
  : M ref :=
  match cs with
  | [] => ret last
  | c :: cs' => let* a := call left_circle right_circle c in
                calls left_circle right_circle cs' a
  end.

(** The run of the script, phase by phase: the state after drawing, after
    the first save, after the flashes, after the chaining loop and after the
    second save. *)
Record run := Run {
  circles : ref * ref;
  st_drawn : state;
  st_static : state;
  final : ref;
  st_animated : state;
  st_chained : state;
  st_saved : state
}.

Definition trace : option run :=
  match draw init with
  | Some (c, st1) =>
    match saveas "cayley.svg" st1 with
    | Some (_, st2) =>
      match animate (fst c) (snd c) st2 with
      | Some (f, st3) =>
        match chain f st3 with
        | Some (_, st4) =>
          match saveas "cayley_active.svg" st4 with
          | Some (_, st5) => Some (Run c st1 st2 f st3 st4 st5)
          | None => None
          end
        | None => None
        end
      | None => None
      end
    | None => None
    end
  | None => None
  end.

(** The elements the references [rs] stand for in [st]. *)
Definition objects (st : state) (rs : list ref) : option (list element) :=
  resolve (heap st) rs.

(** The [begin] attribute of the object [r] in [st]. *)
Definition begin_of (st : state) (r : ref) : option string :=
  match heap st !! r with Some e => attr e "begin" | None => None end.

(** The [k]-th file written and its content. *)
Definition file (st : state) (k : nat) : option (string * document) := files st !! k.

(** The documents of the first and of the second save of a run. *)
Definition static_doc (t : run) : option document := snd <$> file (st_saved t) 0.
Definition animated_doc (t : run) : option document := snd <$> file (st_saved t) 1.

(** An element as its tag and its attributes in key order. *)
Definition render (e : element) : string * list (string * value) :=
  (elementname e, map_to_list (attribs e)).

(** The state after drawing the circles [l] (centre and fill), in order, from
    [st]: each is a new object, added to the drawing and to [circle_elems]. *)
Definition with_circles (st : state) (l : list (point * string)) : state :=
  let new_refs := seq (length (heap st)) (length l) in
  State (heap st ++ map (fun cf => drawn_circle (fst cf) (snd cf)) l)
        (nextid st)
        (Drawing (filename (dwg st)) (width (dwg st)) (height (dwg st))
                 (elements (dwg st) ++ new_refs))
        (all_lines st) (circle_elems st ++ new_refs) (anims st) (files st).

(** Every id in the store is an automatic id already given out, and no two
    objects share an id. *)
Definition ids_unique (st : state) : Prop :=
  (forall (r : ref) e v, heap st !! r = Some e -> attribs e !! "id" = Some v ->
     exists k, k < nextid st /\ v = VStr ("id" +:+ digits (N.of_nat k)))
  /\ (forall (r1 r2 : ref) e1 e2 v,
        heap st !! r1 = Some e1 -> heap st !! r2 = Some e2 ->
        attribs e1 !! "id" = Some v -> attribs e2 !! "id" = Some v -> r1 = r2).

(** The angle of ring point [i] as line 44 computes it:
    [2 * math.pi * i / 6.0], in floats. *)
Definition angle (i : nat) : float :=
  (2 * 0x1.921fb54442d18p+1 * SF2Prim (binary_normalize prec emax (Z.of_nat i) 0 false) / 6)%float.

(** Ring point [i] of centre [(x, y)] and radius [r], all floats: lines 44-45
    in float arithmetic, with the platform's [cos] and [sin]. *)
Definition ring_point (x y r : float) (i : nat) : point :=
  (Float (x + libm_cos (angle i) * r), Float (y - libm_sin (angle i) * r))%float.

End Elements.

(** The start times of the steps of the calls [cs], in the order [flash]
    registers them: the time of the call, and one second later. *)
Definition step_times (cs : list (target * num)) : list Q :=
  flat_map (fun c => [time_of (snd c); Qplus (time_of (snd c)) 1]) cs.

(** The time [q] written with two decimals, ["+%0.2fs" % q], and the value
    line 134 gives it with the id [fid]. *)
Definition offset (q : Q) : string :=
  "+" +:+ (if (Qnum q <? 0)%Z then "-" else "") +:+ decimal_02 q +:+ "s".

Definition chained (fid : string) (q : Q) : string :=
  offset q +:+ "; " +:+ fid +:+ ".end" +:+ offset q.

(** The begin value [flash] writes for a start that is, as a float, [x]. *)
Definition begin_at (x : float) : string := "+" +:+ format_02f x +:+ "s".

End View.

(** * Proofs *)

Import Py Svg Logo View.

(** ** Some evaluations *)

Example format_half : format_02f 0.5 = "0.50".
Proof. reflexivity. Qed.

Example format_tie_to_even : format_02f 0.125 = "0.12".
Proof. reflexivity. Qed.

Example format_negative_zero : format_02f (-0) = "-0.00".
Proof. reflexivity. Qed.

Example format_int : percent_02f (Int 0) = Some "0.00".
Proof. reflexivity. Qed.

Example format_huge_int : percent_02f (Int (10 ^ 400)) = None.
Proof. vm_compute. reflexivity. Qed.

Example largest_int : float_of_int (2 ^ 1024 - 2 ^ 970 - 1) = Some 0x1.fffffffffffffp+1023%float
                      /\ float_of_int (2 ^ 1024 - 2 ^ 970) = None.
Proof. split; vm_compute; reflexivity. Qed.

Example seconds_read : seconds "+12.50s" = Some (1250 # 100)%Q.
Proof. reflexivity. Qed.

Example offset_int_zero : offset 0 = "+0.00s".
Proof. reflexivity. Qed.

Example skip_0_3 : skip 0 3 = true.
Proof. reflexivity. Qed.

Example skip_1_3 : skip 1 3 = false.
Proof. reflexivity. Qed.

Example ring_pairs_6 :
  ring_pairs 6 = [(0, 1); (0, 2); (0, 4); (0, 5); (1, 3); (2, 3); (3, 4); (3, 5)].
Proof. reflexivity. Qed.

(** ** The primitives of the library and [flash] *)

Section Primitives.
Context {Lm : Libm}.

Lemma bind_Some {A B} (m : M A) (k : A -> M B) st a st' :
  m st = Some (a, st') -> bind m k st = k a st'.
Proof. intros H. unfold bind. now rewrite H. Qed.

Lemma new_eq e st :
  new e st = Some (length (heap st), with_heap (heap st ++ [e]) st).
Proof. reflexivity. Qed.

Lemma setitem_eq r k v st e :
  heap st !! r = Some e ->
  setitem r k v st
  = Some (tt, with_heap (<[r := Element (elementname e) (<[k := v]> (attribs e))]> (heap st)) st).
Proof. intros H. unfold setitem, bind, get_state, lift. now rewrite H. Qed.

Lemma get_id_eq r st e :
  heap st !! r = Some e ->
  (forall v, attribs e !! "id" = Some v -> exists s, v = VStr s) ->
  get_id r st = Some (id_of st e, identified st r e).
Proof.
  intros H Hid. unfold get_id, id_of, identified, bind, get_state, lift. rewrite H.
  destruct (attribs e !! "id") as [v|] eqn:E.
  - destruct (Hid v eq_refl) as [s ->]. reflexivity.
  - unfold id_of. rewrite E.
    change (next_id st) with (Some ("id" +:+ digits (N.of_nat (nextid st)), with_nextid (S (nextid st)) st)).
    cbv beta iota. erewrite setitem_eq by exact H. reflexivity.
Qed.

Lemma setitem_last h x k v st :
  heap st = h ++ [x] ->
  setitem (length h) k v st
  = Some (tt, with_heap (h ++ [Element (elementname x) (<[k := v]> (attribs x))]) st).
Proof.
  intros H. rewrite (setitem_eq _ _ _ _ x).
  - rewrite H. do 3 f_equal.
    rewrite <- (Nat.add_0_r (length h)) at 1. now rewrite insert_app_r.
  - rewrite H. apply list_lookup_middle. reflexivity.
Qed.

Lemma identified_heap_length st r e :
  length (heap (identified st r e)) = length (heap st).
Proof.
  unfold identified. destruct (attribs e !! "id"); [reflexivity|].
  destruct st; cbn. apply length_insert.
Qed.

Lemma identified_lookup st r e :
  heap st !! r = Some e -> id_ok e ->
  exists e', heap (identified st r e) !! r = Some e'
             /\ attribs e' !! "id" = Some (VStr (id_of st e)).
Proof.
  intros H Hid. unfold identified, id_of.
  destruct (attribs e !! "id") as [v|] eqn:E.
  - exists e. split; [exact H|]. destruct (Hid v E) as [s ->]. exact E.
  - destruct st; cbn in *. eexists. split.
    + apply list_lookup_insert_eq. eapply lookup_lt_Some; eauto.
    + cbn. apply lookup_insert_eq.
Qed.

Lemma identified_app st r e l :
  heap st !! r = Some e ->
  identified (with_heap (heap st ++ l) st) r e
  = with_heap (heap (identified st r e) ++ l) (identified st r e).
Proof.
  intros H. unfold identified, id_of. destruct st; cbn in *.
  destruct (attribs e !! "id"); [reflexivity|]. cbn.
  unfold with_heap; cbn. f_equal. apply insert_app_l. eapply lookup_lt_Some; eauto.
Qed.

Lemma Animate_eq prop el st e :
  heap st !! el = Some e -> id_ok e ->
  Animate prop el st
  = Some (length (heap st),
          with_heap (heap (identified st el e)
                     ++ [Element "animate"
                           (<["attributeName" := VStr prop]>
                              (<["xlink:href" := VStr ("#" +:+ id_of st e)]> ∅))])
                    (identified st el e)).
Proof.
  intros H Hid. unfold Animate.
  rewrite (bind_Some _ _ _ _ _ (new_eq _ _)).
  rewrite (bind_Some (get_id el) _ _ (id_of st e)
             (with_heap (heap (identified st el e) ++ [Element "animate" ∅]) (identified st el e))).
  2:{ rewrite (get_id_eq _ _ e).
      - f_equal. f_equal. apply (identified_app st el e). exact H.
      - destruct st; cbn in *. now apply lookup_app_l_Some.
      - exact Hid. }
  rewrite <- (identified_heap_length st el e).
  erewrite bind_Some by (apply setitem_last; destruct (identified st el e); reflexivity).
  erewrite bind_Some by (apply setitem_last; destruct (identified st el e); reflexivity).
  destruct (identified st el e); reflexivity.
Qed.


Lemma identified_frame st r e :
  dwg (identified st r e) = dwg st
  /\ all_lines (identified st r e) = all_lines st
  /\ circle_elems (identified st r e) = circle_elems st
  /\ anims (identified st r e) = anims st
  /\ files (identified st r e) = files st.
Proof. unfold identified. destruct (attribs e !! "id"); destruct st; cbn; auto. Qed.

Lemma identified_idem st el e e' :
  attribs e' !! "id" = Some (VStr (id_of st e)) ->
  forall st', id_of st' e' = id_of st e /\ identified st' el e' = st'.
Proof.
  intros H st'. unfold id_of at 1, identified. now rewrite H.
Qed.

Ltac norm_state :=
  unfold with_heap, with_nextid, with_dwg, with_all_lines, with_circle_elems,
         with_anims, with_files;
  cbn [heap nextid dwg all_lines circle_elems anims files
       filename width height elements elementname attribs].

Lemma bind_lift {A B} (a : A) (k : A -> M B) st : bind (lift (Some a)) k st = k a st.
Proof. reflexivity. Qed.

Lemma add_float_r (a : num) (x f : float) :
  to_float a = Some x -> add a (Float f) = Some (Float (x + f)).
Proof.
  destruct a as [z|y]; cbn [add to_float]; intros H.
  - rewrite H. reflexivity.
  - injection H as ->. reflexivity.
Qed.

Lemma percent_02f_eq (a : num) (x : float) :
  to_float a = Some x -> percent_02f a = Some (format_02f x).
Proof. unfold percent_02f. now intros ->. Qed.

Lemma flash_eq el c start x is_line st e :
  heap st !! el = Some e -> id_ok e -> to_float start = Some x ->
  flash el c start is_line st
  = Some (S (length (heap st)), flashed st el e c x is_line).
Proof.
  intros H Hid Hx. unfold flash, flashed.
  destruct (identified_lookup st el e H Hid) as (e' & He' & Hid').
  destruct (identified_frame st el e) as (Hd & Hl & Hc & Ha & Hf).
  pose proof (identified_heap_length st el e) as Hlen.
  set (i := id_of st e) in *. set (st1 := identified st el e) in *.
  set (prop := if is_line then "stroke" else "fill").
  rewrite (percent_02f_eq start x Hx), (add_float_r start x 1 Hx).
  rewrite (bind_Some _ _ _ _ _ (Animate_eq prop el st e H Hid)).
  fold st1 i. rewrite <- Hlen.
  destruct st1 as [h1 n1 d1 l1 c1 a1 f1]. cbn in He', Hd, Hl, Hc, Ha, Hf, Hlen |- *.
  subst d1 l1 c1 a1 f1.
  do 2 (erewrite bind_Some by (apply setitem_last; reflexivity); norm_state).
  rewrite bind_lift.
  do 2 (erewrite bind_Some by (apply setitem_last; reflexivity); norm_state).
  unfold dwg_add at 1, anims_append at 1. cbn [bind get_state modify ret]. norm_state.
  match goal with |- bind (Animate prop el) _ ?S = _ =>
    rewrite (bind_Some _ _ _ _ _ (Animate_eq prop el S e' ltac:(cbn; now apply lookup_app_l_Some) ltac:(intros v Hv; rewrite Hid' in Hv; injection Hv as <-; eauto)));
    destruct (identified_idem st el e e' Hid' S) as [-> ->]
  end.
  norm_state. fold i.
  set (A := step prop ("#" +:+ i) c g ("+" +:+ format_02f x +:+ "s") "1.0s").
  change (h1 ++ [_]) with (h1 ++ [A]).
  do 2 (erewrite bind_Some by (apply setitem_last; reflexivity); norm_state).
  rewrite bind_lift.
  change (percent_02f (Float (x + 1))) with (Some (format_02f (x + 1))).
  rewrite bind_lift.
  do 2 (erewrite bind_Some by (apply setitem_last; reflexivity); norm_state).
  unfold dwg_add at 1, anims_append at 1. cbn [bind get_state modify ret]. norm_state.
  rewrite length_app, Nat.add_1_r. cbn [length].
  rewrite <- !app_assoc. cbn [app]. reflexivity.
Qed.

(** An int too large for a float: [flash] raises at its first use of
    [start], on line 100. *)
Lemma flash_raises el c start is_line st e :
  heap st !! el = Some e -> id_ok e -> to_float start = None ->
  flash el c start is_line st = None.
Proof.
  intros H Hid Hx. unfold flash.
  destruct (identified_lookup st el e H Hid) as (e' & He' & Hid').
  set (prop := if is_line then "stroke" else "fill").
  rewrite (bind_Some _ _ _ _ _ (Animate_eq prop el st e H Hid)).
  rewrite <- (identified_heap_length st el e).
  destruct (identified st el e) as [h1 n1 d1 l1 c1 a1 f1]. cbn [heap] in *.
  do 2 (erewrite bind_Some by (apply setitem_last; reflexivity); norm_state).
  unfold percent_02f. rewrite Hx. reflexivity.
Qed.


(** *** Lines *)

Lemma draw_line_eq p q st :
  draw_line p q st = Some (tt, with_lines st [(p, q)]).
Proof.
  unfold draw_line, dwg_line.
  rewrite (bind_Some _ _ _ _ _ (new_eq _ _)).
  unfold dwg_add at 1. cbn [bind get_state modify ret]. norm_state.
  unfold stroke.
  unfold bind at 1. unfold bind at 1.
  erewrite setitem_last by reflexivity. norm_state.
  erewrite setitem_last by reflexivity. norm_state.
  unfold all_lines_append, with_lines. cbn [bind get_state modify ret]. norm_state.
  reflexivity.
Qed.

Lemma with_lines_nil st : with_lines st [] = st.
Proof.
  unfold with_lines. destruct st as [h i [f w hh es] al ce an fs]. cbn.
  now rewrite !app_nil_r.
Qed.

Lemma with_lines_app st l1 l2 :
  with_lines (with_lines st l1) l2 = with_lines st (l1 ++ l2).
Proof.
  unfold with_lines. cbn [heap nextid dwg all_lines circle_elems anims files
                          filename width height elements].
  rewrite map_app, !length_app, length_map, seq_app, <- !app_assoc. reflexivity.
Qed.

Lemma row_eq i c l st :
  for_each l (fun '(j, d) => if skip i j then ret tt else draw_line c d) st
  = Some (tt, with_lines st (row_lines i c l)).
Proof.
  revert st. induction l as [|[j d] l IH]; intros st.
  - cbn. now rewrite with_lines_nil.
  - cbn [for_each row_lines omap list_omap fst snd]. unfold bind.
    change (omap ?f l) with (row_lines i c l) in *.
    destruct (skip i j).
    + cbn [ret]. apply IH.
    + rewrite draw_line_eq, IH. cbn [mret mbind]. now rewrite with_lines_app.
Qed.

Lemma ring_edges_from l ring st :
  for_each l (fun '(i, c) =>
    for_each (enumerate ring) (fun '(j, d) =>
      if skip i j then ret tt else draw_line c d)) st
  = Some (tt, with_lines st
                (flat_map (fun ic => row_lines (fst ic) (snd ic) (enumerate ring)) l)).
Proof.
  revert st. induction l as [|[i c] l IH]; intros st.
  - cbn. now rewrite with_lines_nil.
  - cbn [for_each flat_map fst snd]. unfold bind.
    rewrite row_eq, IH. now rewrite with_lines_app.
Qed.

Lemma ring_edges_eq ring st :
  ring_edges ring st = Some (tt, with_lines st (loop_lines ring)).
Proof. apply ring_edges_from. Qed.

Lemma loop_lines_six (ring : list point) :
  length ring = 6 -> loop_lines ring = map (ends ring) (ring_pairs 6).
Proof.
  intros H.
  destruct ring as [|c0 [|c1 [|c2 [|c3 [|c4 [|c5 [|]]]]]]]; try discriminate H.
  reflexivity.
Qed.

End Primitives.

(** ** The edge rule, the run and its observations *)

Section Run.
Context {Lm : Libm}.

Lemma skip_spec i j : i < j -> skip i j = spec_skip i j.
Proof.
  intros H. unfold skip, spec_skip.
  assert (E1 : (j <? i) = false) by (apply Nat.ltb_ge; lia).
  assert (E2 : (i =? j) = false) by (apply Nat.eqb_neq; lia).
  assert (E3 : ((i =? 3) && (j =? 0)) = false).
  { destruct (Nat.eqb_spec j 0); [lia|]. apply andb_false_r. }
  rewrite E1, E2, E3. cbn [orb].
  destruct (i mod 3 =? j mod 3); [reflexivity|].
  destruct ((i mod 3 =? 1) && (j mod 3 =? 2)); [reflexivity|].
  rewrite (andb_comm (i mod 3 =? 2)). cbn [orb].
  destruct ((j mod 3 =? 1) && (i mod 3 =? 2)); reflexivity.
Qed.

Lemma ring_pairs_elem m i j :
  (i, j) ∈ ring_pairs m <-> skip i j = false /\ i < m /\ j < m.
Proof.
  unfold ring_pairs. rewrite list_elem_of_filter, list_elem_of_In, in_prod_iff, !in_seq.
  cbn. intuition lia.
Qed.

(** C1.  On a ring of six nodes the ring loop draws, from any state, exactly
    the edges of [ring_pairs 6], in that order; and for ring indices [i < j]
    the pair [(i, j)] is one of them exactly when none of the four skip rules
    of the specification fires, the guards of the code and the rules of the
    specification being the same test on such a pair.  An edge that is drawn
    carries the default stroke colour and width. *)
Theorem ring_edge_rule (ring : list point) (st : state) (i j : nat) :
  length ring = 6 -> i < j -> j < 6 ->
  ring_edges ring st = Some (tt, with_lines st (map (ends ring) (ring_pairs 6)))
  /\ skip i j = spec_skip i j
  /\ ((i, j) ∈ ring_pairs 6 <-> spec_skip i j = false)
  /\ (forall p, p ∈ ring_pairs 6 -> fst p < snd p /\ snd p < 6)
  /\ attr (drawn_line (fst (ends ring (i, j))) (snd (ends ring (i, j)))) "stroke"
     = Some edge_color
  /\ attribs (drawn_line (fst (ends ring (i, j))) (snd (ends ring (i, j)))) !! "stroke-width"
     = Some (VNum edge_stroke).
Proof.
  intros Hlen Hij Hj. repeat match goal with |- _ /\ _ => split end.
  - rewrite ring_edges_eq. now rewrite loop_lines_six.
  - now apply skip_spec.
  - rewrite ring_pairs_elem, skip_spec by exact Hij. intuition lia.
  - intros [a c] Hp. apply ring_pairs_elem in Hp as (Hs & Ha & Hc). cbn [fst snd].
    split; [|exact Hc]. unfold skip in Hs.
    destruct (Nat.ltb_spec c a); [discriminate Hs|].
    destruct (Nat.eqb_spec a c); [discriminate Hs|]. lia.
  - reflexivity.
  - reflexivity.
Qed.

(** The script runs to its end: no index or key is missing on the way. *)
Lemma trace_runs : exists t, trace = Some t.
Proof.
  assert (H : match trace with Some _ => true | None => false end = true)
    by (vm_compute; reflexivity).
  destruct trace as [t|]; [eauto | discriminate].
Qed.

(** [trace] is [main], cut at its phases. *)
Lemma trace_sound t :
  trace = Some t ->
  draw init = Some (circles t, st_drawn t)
  /\ saveas "cayley.svg" (st_drawn t) = Some (tt, st_static t)
  /\ animate (fst (circles t)) (snd (circles t)) (st_static t)
     = Some (final t, st_animated t)
  /\ chain (final t) (st_animated t) = Some (tt, st_chained t)
  /\ saveas "cayley_active.svg" (st_chained t) = Some (tt, st_saved t)
  /\ main init = Some (final t, st_saved t).
Proof.
  unfold trace, main, bind.
  destruct (draw init) as [[c st1]|] eqn:E1; [|discriminate].
  destruct (saveas "cayley.svg" st1) as [[[] st2]|] eqn:E2; [|discriminate].
  destruct (animate (fst c) (snd c) st2) as [[f st3]|] eqn:E3; [|discriminate].
  destruct (chain f st3) as [[[] st4]|] eqn:E4; [|discriminate].
  destruct (saveas "cayley_active.svg" st4) as [[[] st5]|] eqn:E5; [|discriminate].
  intros [= <-]. cbn. auto 10.
Qed.

(** Reading an observation of the run off its computed value. *)
Lemma observed {A} (f g : run -> A) t :
  f <$> trace = g <$> trace -> trace = Some t -> f t = g t.
Proof. intros H E. rewrite E in H. now injection H. Qed.

Lemma bind_ext {A B} (m : M A) (k1 k2 : A -> M B) st :
  (forall a st', k1 a st' = k2 a st') -> bind m k1 st = bind m k2 st.
Proof. intros H. unfold bind. destruct (m st) as [[a st']|]; auto. Qed.

Lemma bind_ret_r {A} (m : M A) st : bind m ret st = m st.
Proof. unfold bind. destruct (m st) as [[a st']|]; reflexivity. Qed.

(** Lines 116-131 are the calls of [flash_calls], in order. *)
Lemma animate_calls l r st :
  animate l r st = calls l r flash_calls l st.
Proof.
  unfold animate, flash_calls. cbn [calls call fst snd].
  repeat (apply bind_ext; intros ? ?).
  symmetry. apply bind_ret_r.
Qed.

(** *** Comparing elements by what they render to *)

Lemma render_inj (e1 e2 : element) : render e1 = render e2 -> e1 = e2.
Proof.
  destruct e1 as [n1 a1], e2 as [n2 a2]. unfold render. cbn.
  intros [= -> H]. f_equal. apply map_to_list_inj. rewrite H. reflexivity.
Qed.

Lemma renders_inj (l1 l2 : list element) : map render l1 = map render l2 -> l1 = l2.
Proof.
  revert l2. induction l1 as [|e1 l1 IH]; intros [|e2 l2]; cbn [map]; try discriminate.
  - reflexivity.
  - intros H. assert (H1 : render e1 = render e2) by congruence.
    assert (H2 : map render l1 = map render l2) by congruence.
    f_equal; [now apply render_inj | now apply IH].
Qed.

Lemma render_opt_inj (o1 o2 : option element) :
  render <$> o1 = render <$> o2 -> o1 = o2.
Proof.
  destruct o1, o2; cbn [fmap option_fmap option_map]; try discriminate; [|reflexivity].
  intros H. f_equal. apply render_inj. congruence.
Qed.

Lemma renders_opt_inj (o1 o2 : option (list element)) :
  map render <$> o1 = map render <$> o2 -> o1 = o2.
Proof.
  destruct o1, o2; cbn [fmap option_fmap option_map]; try discriminate; [|reflexivity].
  intros H. f_equal. apply renders_inj. congruence.
Qed.

(** An observation of a document, read off the run. *)
Lemma doc_fact {A} (doc : run -> option document) (f : document -> A) v t d :
  f <$> doc t = Some v -> doc t = Some d -> f d = v.
Proof. intros H E. rewrite E in H. now injection H. Qed.

End Run.

(** Proves [lhs = rhs], two observations of the run [t], by running the script. *)
Ltac by_run t E :=
  match goal with
  | |- ?lhs = ?rhs =>
      let f := eval pattern t in lhs in
      let g := eval pattern t in rhs in
      match f with
      | ?f' t =>
          match g with
          | ?g' t => apply (observed f' g' t); [vm_compute; reflexivity | exact E]
          end
      end
  end.

(** The same for elements, compared by what they render to. *)
Ltac by_run_elems t E :=
  first [ apply renders_opt_inj | apply renders_inj | apply render_opt_inj ];
  by_run t E.

(** The same for an observation of the document [d] of the run, [H : doc t = Some d]. *)
Ltac by_doc doc t E d H :=
  match goal with
  | |- ?lhs = ?v =>
      let f := eval pattern d in lhs in
      match f with
      | ?f' d => apply (doc_fact doc f' v t d); [by_run t E | exact H]
      end
  end.

Section Drawing.
Context {Lm : Libm}.

(** The two files of a run. *)
Lemma saved_files t :
  trace = Some t ->
  exists d1 d2,
    files (st_saved t) = [("cayley.svg", d1); ("cayley_active.svg", d2)]
    /\ static_doc t = Some d1 /\ animated_doc t = Some d2.
Proof.
  intros E.
  assert (H1 : map fst (files (st_saved t)) = ["cayley.svg"; "cayley_active.svg"])
    by by_run t E.
  unfold static_doc, animated_doc, file.
  destruct (files (st_saved t)) as [|[n1 d1] [|[n2 d2] [|]]]; try discriminate H1.
  injection H1 as -> ->. exists d1, d2. auto.
Qed.

(** C6.  After drawing, [all_lines] holds the edge from the left fan point
    to ring node 3, the edge from the right fan point to ring node 0, and
    then the ring edges in ascending lexicographic order of their index
    pairs; any run of [draw] from the initial state yields that same list. *)
Theorem edge_order :
  exists t,
    trace = Some t
    /\ draw init = Some (circles t, st_drawn t)
    /\ objects (st_drawn t) (all_lines (st_drawn t))
       = Some (drawn_line outer_left (ring 3) :: drawn_line outer_right (ring 0)
               :: map (fun p => drawn_line (ring (fst p)) (ring (snd p))) (ring_pairs 6))
    /\ ring_pairs 6 = [(0, 1); (0, 2); (0, 4); (0, 5); (1, 3); (2, 3); (3, 4); (3, 5)]
    /\ StronglySorted lex_lt (ring_pairs 6)
    /\ forall c st, draw init = Some (c, st) ->
         objects st (all_lines st) = objects (st_drawn t) (all_lines (st_drawn t)).
Proof.
  destruct trace_runs as [t E]. exists t.
  destruct (trace_sound t E) as (Hd & _).
  split; [exact E|]. split; [exact Hd|]. split; [|split; [|split]].
  - by_run_elems t E.
  - reflexivity.
  - change (ring_pairs 6) with [(0, 1); (0, 2); (0, 4); (0, 5); (1, 3); (2, 3); (3, 4); (3, 5)].
    repeat (constructor; [|repeat constructor; unfold lex_lt; cbn; lia]). constructor.
  - intros c st H. rewrite Hd in H. now injection H as _ <-.
Qed.

(** C10.  [all_lines] has ten elements, the two fan edges at positions 0
    and 1 and the eight ring edges after them, and is the same list when the
    flashes are scripted; every position the calls of lines 116-131 index is
    below ten and is found, and the script runs to its end. *)
Theorem lines_in_bounds :
  exists t,
    trace = Some t
    /\ main init = Some (final t, st_saved t)
    /\ length (all_lines (st_drawn t)) = 10
    /\ all_lines (st_static t) = all_lines (st_drawn t)
    /\ all_lines (st_animated t) = all_lines (st_drawn t)
    /\ objects (st_drawn t) (take 2 (all_lines (st_drawn t)))
       = Some [drawn_line outer_left (ring 3); drawn_line outer_right (ring 0)]
    /\ objects (st_drawn t) (drop 2 (all_lines (st_drawn t)))
       = Some (map (fun p => drawn_line (ring (fst p)) (ring (snd p))) (ring_pairs 6))
    /\ length (ring_pairs 6) = 8
    /\ (forall l r st, animate l r st = calls l r flash_calls l st)
    /\ line_indices flash_calls = [0; 7; 3; 9; 5; 1; 0; 6; 4; 8; 2; 1]
    /\ Forall (fun k => k < 10) (line_indices flash_calls)
    /\ Forall (fun k => is_Some (all_lines (st_static t) !! k)) (line_indices flash_calls).
Proof.
  destruct trace_runs as [t E]. exists t.
  destruct (trace_sound t E) as (_ & _ & _ & _ & _ & Hm).
  assert (Hl : all_lines (st_drawn t) = seq 0 10) by by_run t E.
  assert (Hs : all_lines (st_static t) = all_lines (st_drawn t)) by by_run t E.
  repeat split; try assumption.
  - now rewrite Hl.
  - by_run t E.
  - by_run_elems t E.
  - by_run_elems t E.
  - apply animate_calls.
  - cbn. repeat constructor; lia.
  - rewrite Hs, Hl. cbn. repeat constructor; eexists; reflexivity.
Qed.

(** C7.  The six ring circles are filled with [center_colors], node by
    node, each colour being one of blue, red, green and yellow and none being
    green; fan circles and edges are grey [n]; no element of the first file
    uses green, in the second file only animation steps do, and every flash
    goes from grey to green and back. *)
Theorem node_colours :
  exists t d1 d2,
    trace = Some t
    /\ static_doc t = Some d1 /\ animated_doc t = Some d2
    /\ center_colors = [b; r; y; b; r; y]
    /\ Forall (fun c => c ∈ [b; r; g; y] /\ c <> g) center_colors
    /\ objects (st_drawn t) (circle_elems (st_drawn t))
       = Some (zip_with drawn_circle ring_centers center_colors)
    /\ length (circle_elems (st_drawn t)) = 6
    /\ fan_color = n /\ edge_color = n
    /\ heap (st_drawn t) !! fst (circles t) = Some (drawn_circle outer_left fan_color)
    /\ heap (st_drawn t) !! snd (circles t) = Some (drawn_circle outer_right fan_color)
    /\ (map (fun e => attr e "stroke") <$> objects (st_drawn t) (all_lines (st_drawn t)))
       = Some (replicate 10 (Some edge_color))
    /\ forallb (fun e => negb (uses_colour g e)) (doc_elements d1) = true
    /\ forallb (fun e => is_animate e || negb (uses_colour g e)) (doc_elements d2) = true
    /\ map (fun e => (attr e "from", attr e "to")) (animations d2)
       = flat_map (fun _ => [(Some n, Some g); (Some g, Some n)]) flash_calls.
Proof.
  destruct trace_runs as [t E].
  destruct (saved_files t E) as (d1 & d2 & Hf & H1 & H2).
  exists t, d1, d2.
  repeat match goal with |- _ /\ _ => split end; try assumption; try reflexivity.
  - unfold center_colors. repeat constructor; try discriminate; set_solver.
  - by_run_elems t E.
  - by_run t E.
  - by_run_elems t E.
  - by_run_elems t E.
  - by_run t E.
  - by_doc static_doc t E d1 H1.
  - by_doc animated_doc t E d2 H2.
  - by_doc animated_doc t E d2 H2.
Qed.

End Drawing.

Lemma string_app_assoc (a b c : string) : (a +:+ b) +:+ c = a +:+ (b +:+ c).
Proof.
  induction a as [|x a IH]; [reflexivity|].
  change (String x ((a +:+ b) +:+ c) = String x (a +:+ (b +:+ c))). now rewrite IH.
Qed.

Lemma chained_contains fid q : contains (fid +:+ ".end") (chained fid q).
Proof.
  exists (offset q +:+ "; "), (offset q). unfold chained.
  now rewrite !string_app_assoc.
Qed.

Section Changes.
Context {Lm : Libm}.

Lemma animation_count t d2 :
  trace = Some t -> animated_doc t = Some d2 -> length (animations d2) = 32.
Proof. intros E H2. by_doc animated_doc t E d2 H2. Qed.

(** In the second file every line carries an id. *)
Lemma lines_identified t d2 :
  trace = Some t -> animated_doc t = Some d2 ->
  forall e, e ∈ doc_elements d2 -> elementname e = "line" -> attribs e !! "id" <> None.
Proof.
  intros E H2 e He Hn Hid.
  assert (H : forallb (fun e => negb (String.eqb (elementname e) "line")
                                || match attribs e !! "id" with Some _ => true | None => false end)
                      (doc_elements d2) = true)
    by by_doc animated_doc t E d2 H2.
  rewrite forallb_forall in H. apply list_elem_of_In, H in He.
  rewrite Hn, Hid in He. discriminate He.
Qed.

Lemma first_line_changed :
  exists t d1 d2 e1,
    trace = Some t /\ static_doc t = Some d1 /\ animated_doc t = Some d2
    /\ doc_elements d1 !! 0 = Some e1
    /\ e1 ∈ doc_elements d1
    /\ e1 ∉ doc_elements d2.
Proof.
  destruct trace_runs as [t E].
  destruct (saved_files t E) as (d1 & d2 & Hf & H1 & H2).
  assert (H : (fun e => (elementname e, attr e "id", attribs e !! "id" ≫= fun _ => Some tt))
                <$> doc_elements d1 !! 0 = Some ("line", None, None))
    by by_doc static_doc t E d1 H1.
  destruct (doc_elements d1 !! 0) as [e1|] eqn:E1; [|discriminate H].
  injection H as Hn _ Hid.
  exists t, d1, d2, e1. repeat split; try assumption.
  - eapply list_elem_of_lookup_2; eauto.
  - intros Hin. apply (lines_identified t d2 E H2 e1 Hin Hn).
    destruct (attribs e1 !! "id"); [discriminate Hid | reflexivity].
Qed.

End Changes.

Section Files.
Context {Lm : Libm}.

(** C3.  The loop of lines 133-134 rewrites the [begin] attribute of every
    registered animation step, the final one included (it is the last of
    [anims]), from ["+Ts"] to ["+Ts; id13.end+Ts"], where ["id13"] is the id
    of the final step; the second file holds the rewritten values, and each
    of them contains ["id13.end"]. *)
Theorem begin_chained :
  exists t d2 fid,
    trace = Some t
    /\ animated_doc t = Some d2
    /\ chain (final t) (st_animated t) = Some (tt, st_chained t)
    /\ fid = "id13"
    /\ (heap (st_chained t) !! final t ≫= fun e => attr e "id") = Some fid
    /\ anims (st_chained t) = anims (st_animated t)
    /\ objects (st_chained t) (anims (st_chained t)) = Some (animations d2)
    /\ last (anims (st_chained t)) = Some (final t)
    /\ map (begin_of (st_animated t)) (anims (st_animated t))
       = map (fun q => Some (offset q)) (step_times flash_calls)
    /\ map (begin_of (st_chained t)) (anims (st_chained t))
       = map (fun q => Some (chained fid q)) (step_times flash_calls)
    /\ map (fun e => attr e "begin") (animations d2)
       = map (fun q => Some (chained fid q)) (step_times flash_calls)
    /\ begin_of (st_chained t) (final t) = Some (chained fid 7)
    /\ forall q, contains (fid +:+ ".end") (chained fid q).
Proof.
  destruct trace_runs as [t E].
  destruct (saved_files t E) as (d1 & d2 & Hf & H1 & H2).
  destruct (trace_sound t E) as (_ & _ & _ & Hc & _).
  exists t, d2, "id13".
  repeat match goal with |- _ /\ _ => split end; try assumption; try reflexivity.
  - by_run t E.
  - by_run t E.
  - assert (X : objects (st_chained t) (anims (st_chained t))
               = animations <$> animated_doc t) by by_run_elems t E.
    now rewrite X, H2.
  - by_run t E.
  - by_run t E.
  - by_run t E.
  - by_doc animated_doc t E d2 H2.
  - by_run t E.
  - intros q. apply chained_contains.
Qed.


(** C4, as amended.  Lines 116-131 are sixteen calls of [flash]; the second
    file holds two animation entries for each, thirty-two in all, and the
    first file, saved when no flash had been called, holds none. *)
Theorem animation_entries :
  exists t d1 d2,
    trace = Some t
    /\ main init = Some (final t, st_saved t)
    /\ files (st_saved t) = [("cayley.svg", d1); ("cayley_active.svg", d2)]
    /\ (forall l r st, animate l r st = calls l r flash_calls l st)
    /\ length flash_calls = 16
    /\ length (animations d2) = 2 * length flash_calls
    /\ length (animations d2) = 32
    /\ length (anims (st_saved t)) = 32
    /\ animations d1 = []
    /\ anims (st_drawn t) = []
    /\ saveas "cayley.svg" (st_drawn t) = Some (tt, st_static t).
Proof.
  destruct trace_runs as [t E].
  destruct (saved_files t E) as (d1 & d2 & Hf & H1 & H2).
  destruct (trace_sound t E) as (_ & Hs & _ & _ & _ & Hm).
  exists t, d1, d2.
  repeat match goal with |- _ /\ _ => split end; try assumption; try reflexivity.
  - apply animate_calls.
  - now rewrite (animation_count t d2 E H2).
  - exact (animation_count t d2 E H2).
  - by_run t E.
  - apply renders_inj. by_doc static_doc t E d1 H1.
  - by_run t E.
Qed.

(** C8, on the code.  [svgwrite.Drawing((210,130))] passes the pair as the
    first positional parameter, which is the file name: the size keeps its
    default, and both files are written with width and height ["100%"]. *)
Theorem canvas_size :
  exists t d1 d2,
    trace = Some t
    /\ main init = Some (final t, st_saved t)
    /\ files (st_saved t) = [("cayley.svg", d1); ("cayley_active.svg", d2)]
    /\ dwg init = Drawing_init (Some (VPair (VNum (Int 210)) (VNum (Int 130)))) None
    /\ filename (dwg init) = VPair (VNum (Int 210)) (VNum (Int 130))
    /\ width (dwg init) = VStr "100%" /\ height (dwg init) = VStr "100%"
    /\ doc_width d1 = VStr "100%" /\ doc_height d1 = VStr "100%"
    /\ doc_width d2 = VStr "100%" /\ doc_height d2 = VStr "100%".
Proof.
  destruct trace_runs as [t E].
  destruct (saved_files t E) as (d1 & d2 & Hf & H1 & H2).
  destruct (trace_sound t E) as (_ & _ & _ & _ & _ & Hm).
  exists t, d1, d2.
  repeat match goal with |- _ /\ _ => split end; try assumption; try reflexivity.
  - by_doc static_doc t E d1 H1.
  - by_doc static_doc t E d1 H1.
  - by_doc animated_doc t E d2 H2.
  - by_doc animated_doc t E d2 H2.
Qed.

(** C9, as amended.  The drawing is written exactly twice, first when no
    animation step exists and then after all of them; the second file holds
    the eighteen elements of the first in the same order, each with the same
    attributes apart from the automatic id the ten lines and the two fan
    circles have received (the six ring circles are unchanged), followed by
    the thirty-two animation entries and nothing else. *)
Theorem second_save_extends_first :
  exists t d1 d2,
    trace = Some t
    /\ main init = Some (final t, st_saved t)
    /\ files (st_saved t) = [("cayley.svg", d1); ("cayley_active.svg", d2)]
    /\ files (st_drawn t) = []
    /\ anims (st_drawn t) = []
    /\ saveas "cayley.svg" (st_drawn t) = Some (tt, st_static t)
    /\ saveas "cayley_active.svg" (st_chained t) = Some (tt, st_saved t)
    /\ objects (st_drawn t) (elements (dwg (st_drawn t))) = Some (doc_elements d1)
    /\ objects (st_chained t) (elements (dwg (st_chained t))) = Some (doc_elements d2)
    /\ animations d1 = []
    /\ length (doc_elements d1) = 18
    /\ map without_id (take 18 (doc_elements d2)) = doc_elements d1
    /\ map (fun e => attr e "id") (take 18 (doc_elements d2))
       = [Some "id2"; Some "id7"; Some "id12"; Some "id4"; Some "id10";
          Some "id6"; Some "id9"; Some "id3"; Some "id11"; Some "id5";
          None; None; None; None; None; None; Some "id1"; Some "id8"]
    /\ take 6 (drop 10 (doc_elements d2)) = take 6 (drop 10 (doc_elements d1))
    /\ drop 18 (doc_elements d2) = animations d2
    /\ length (animations d2) = 32.
Proof.
  destruct trace_runs as [t E].
  destruct (saved_files t E) as (d1 & d2 & Hf & H1 & H2).
  destruct (trace_sound t E) as (_ & Hs & _ & _ & Hs' & Hm).
  exists t, d1, d2.
  repeat match goal with |- _ /\ _ => split end; try assumption.
  - by_run t E.
  - by_run t E.
  - assert (X : objects (st_drawn t) (elements (dwg (st_drawn t)))
               = doc_elements <$> static_doc t) by by_run_elems t E.
    now rewrite X, H1.
  - assert (X : objects (st_chained t) (elements (dwg (st_chained t)))
               = doc_elements <$> animated_doc t) by by_run_elems t E.
    now rewrite X, H2.
  - apply renders_inj. by_doc static_doc t E d1 H1.
  - by_doc static_doc t E d1 H1.
  - assert (X : (fun d => map without_id (take 18 (doc_elements d))) <$> animated_doc t
               = doc_elements <$> static_doc t) by by_run_elems t E.
    rewrite H1, H2 in X. now injection X.
  - by_doc animated_doc t E d2 H2.
  - assert (X : (fun d => take 6 (drop 10 (doc_elements d))) <$> animated_doc t
               = (fun d => take 6 (drop 10 (doc_elements d))) <$> static_doc t)
      by by_run_elems t E.
    rewrite H1, H2 in X. now injection X.
  - assert (X : (fun d => drop 18 (doc_elements d)) <$> animated_doc t
               = animations <$> animated_doc t) by by_run_elems t E.
    rewrite H2 in X. now injection X.
  - exact (animation_count t d2 E H2).
Qed.

End Files.

(** ** Reading back what ["%0.2f"] writes *)

Lemma natural_acc (d : Decimal.uint) (acc : positive) :
  natural (NilEmpty.string_of_uint d) (Npos acc) = Some (Npos (Pos.of_uint_acc d acc)).
Proof.
  revert acc. induction d; intros acc; cbn [NilEmpty.string_of_uint natural Pos.of_uint_acc];
    [reflexivity|..];
    (change (digit _) with (Some 0%N) || change (digit _) with (Some 1%N)
     || change (digit _) with (Some 2%N) || change (digit _) with (Some 3%N)
     || change (digit _) with (Some 4%N) || change (digit _) with (Some 5%N)
     || change (digit _) with (Some 6%N) || change (digit _) with (Some 7%N)
     || change (digit _) with (Some 8%N) || change (digit _) with (Some 9%N));
    cbn [mbind option_bind]; rewrite <- IHd; f_equal; lia.
Qed.

Lemma natural_uint (d : Decimal.uint) :
  natural (NilEmpty.string_of_uint d) 0 = Some (N.of_uint d).
Proof.
  induction d; cbn [NilEmpty.string_of_uint natural]; [reflexivity|..];
    (change (digit _) with (Some 0%N) || change (digit _) with (Some 1%N)
     || change (digit _) with (Some 2%N) || change (digit _) with (Some 3%N)
     || change (digit _) with (Some 4%N) || change (digit _) with (Some 5%N)
     || change (digit _) with (Some 6%N) || change (digit _) with (Some 7%N)
     || change (digit _) with (Some 8%N) || change (digit _) with (Some 9%N));
    cbn [mbind option_bind N.mul N.add]; first [exact IHd | apply natural_acc].
Qed.

Lemma digits_uint (n : N) : digits n = NilEmpty.string_of_uint (N.to_uint n).
Proof.
  unfold digits, NilZero.string_of_uint.
  destruct (N.to_uint n) eqn:E; try reflexivity.
  destruct n as [|p]; [discriminate E|].
  exfalso. revert E. apply DecimalPos.Unsigned.to_uint_nonnil.
Qed.

Lemma natural_digits (n : N) : natural (digits n) 0 = Some n.
Proof. rewrite digits_uint, natural_uint. f_equal. apply DecimalN.Unsigned.of_to. Qed.

Lemma app_String (c : ascii) (s t : string) : String c s +:+ t = String c (s +:+ t).
Proof. reflexivity. Qed.

Lemma app_empty (t : string) : "" +:+ t = t.
Proof. reflexivity. Qed.

Lemma before_dot_uint (d : Decimal.uint) (rest : string) :
  before_dot (NilEmpty.string_of_uint d +:+ String "." rest)
  = Some (NilEmpty.string_of_uint d, rest).
Proof.
  induction d; cbn [NilEmpty.string_of_uint]; rewrite ?app_String, ?app_empty;
    cbn [before_dot]; [reflexivity|..];
    (change (Ascii.eqb _ ".") with false; cbv iota; rewrite IHd; reflexivity).
Qed.

Lemma before_dot_digits (n : N) (rest : string) :
  before_dot (digits n +:+ String "." rest) = Some (digits n, rest).
Proof. rewrite digits_uint. apply before_dot_uint. Qed.

(** A numeral starts with a digit. *)
Lemma digits_head (n : N) :
  exists c s, digits n = String c s /\ Ascii.eqb c "-" = false.
Proof.
  rewrite digits_uint.
  assert (H : N.to_uint n <> Decimal.Nil).
  { destruct n as [|p]; [discriminate | apply DecimalPos.Unsigned.to_uint_nonnil]. }
  destruct (N.to_uint n); [contradiction|..]; cbn [NilEmpty.string_of_uint]; eauto.
Qed.

(** The two digits after the point. *)
Lemma two_digits (k : N) :
  (k < 100)%N ->
  exists d1 d2,
    (if (k <? 10)%N then "0" else "") +:+ digits k = String d1 (String d2 "")
    /\ digit d1 = Some (k / 10)%N /\ digit d2 = Some (k mod 10)%N.
Proof.
  intros Hk.
  assert (H : forallb (fun i =>
                let k := N.of_nat i in
                match (if (k <? 10)%N then "0" else "") +:+ digits k with
                | String d1 (String d2 EmptyString) =>
                    match digit d1, digit d2 with
                    | Some a, Some b => ((a =? k / 10) && (b =? k mod 10))%N
                    | _, _ => false
                    end
                | _ => false
                end) (seq 0 100) = true) by (vm_compute; reflexivity).
  rewrite forallb_forall in H. specialize (H (N.to_nat k)).
  rewrite N2Nat.id in H. cbv zeta in H.
  assert (Hin : In (N.to_nat k) (seq 0 100)) by (apply in_seq; lia).
  specialize (H Hin).
  destruct ((if (k <? 10)%N then "0" else "") +:+ digits k) as [|d1 [|d2 [|]]];
    try discriminate H.
  destruct (digit d1) as [a|] eqn:E1; [|discriminate H].
  destruct (digit d2) as [b|] eqn:E2; [|discriminate H].
  apply andb_true_iff in H as [Ha Hb]. apply N.eqb_eq in Ha, Hb.
  exists d1, d2. rewrite E1, E2, Ha, Hb. auto.
Qed.

(** What [seconds] reads from a numeral written by [decimal_02], with or
    without a sign: the hundredths the numeral was written from. *)
Lemma seconds_decimal (neg : bool) (q : Q) :
  (0 <= round_hundredths q)%Z ->
  seconds ("+" +:+ ((if neg then "-" else "") +:+ decimal_02 q) +:+ "s")
  = Some ((if neg then -1 else 1) * (round_hundredths q # 100))%Q.
Proof.
  intros Hc. unfold decimal_02. set (c := round_hundredths q) in *. cbv zeta.
  set (I := Z.to_N (c / 100)). set (k := Z.to_N (c mod 100)).
  assert (Hk : (k < 100)%N) by (unfold k; pose proof (Z.mod_pos_bound c 100); lia).
  destruct (two_digits k Hk) as (d1 & d2 & Hf & H1 & H2).
  destruct (digits_head I) as (c0 & s0 & Hh & Hm).
  set (dec := digits I +:+ "." +:+ (if (k <? 10)%N then "0" else "") +:+ digits k).
  assert (Hs : dec +:+ "s" = digits I +:+ String "." (String d1 (String d2 "s"))).
  { unfold dec. rewrite (string_app_assoc (digits I) _ "s"). f_equal.
    rewrite (string_app_assoc "." _ "s"), Hf. reflexivity. }
  assert (Hval : Z.of_N (I * 100 + k / 10 * 10 + k mod 10) = c).
  { pose proof (N.div_mod k 10). unfold I, k in *.
    pose proof (Z.div_mod c 100). pose proof (Z.mod_pos_bound c 100).
    assert (0 <= c / 100)%Z by (apply Z.div_pos; lia). lia. }
  assert (Hread : forall r : string,
             r = dec +:+ "s" ->
             (p ← before_dot r;
              match fst p, snd p with
              | String _ _, String e1 (String e2 (String c3 EmptyString)) =>
                  if Ascii.eqb c3 "s" then
                    i ← natural (fst p) 0;
                    a ← digit e1;
                    b ← digit e2;
                    Some ((if neg then -1 else 1) * (Z.of_N (i * 100 + a * 10 + b) # 100))%Q
                  else None
              | _, _ => None
              end) = Some ((if neg then -1 else 1) * (c # 100))%Q).
  { intros r ->. rewrite Hs, before_dot_digits. cbn [mbind option_bind fst snd].
    rewrite Hh at 1. change (Ascii.eqb "s" "s") with true. cbv iota.
    rewrite natural_digits, H1, H2. cbn [mbind option_bind]. now rewrite Hval. }
  unfold seconds. destruct neg.
  - change ("+" +:+ ("-" +:+ dec) +:+ "s") with (String "+" (String "-" (dec +:+ "s"))).
    cbv iota. change (Ascii.eqb "+" "+") with true. change (Ascii.eqb "-" "-") with true.
    cbv iota zeta. now apply Hread.
  - change ("+" +:+ ("" +:+ dec) +:+ "s") with (String "+" (dec +:+ "s")).
    cbv iota. change (Ascii.eqb "+" "+") with true. cbv iota.
    assert (Hneg : match dec +:+ "s" with String c _ => Ascii.eqb c "-" | _ => false end = false).
    { rewrite Hs, Hh. exact Hm. }
    rewrite Hneg. cbv iota zeta. now apply Hread.
Qed.

(** ** The rounding of ["%0.2f"] *)

Lemma round_cases (q : Q) :
  let n := Z.abs (Qnum q) in
  let d := Zpos (Qden q) in
  let c := round_hundredths q in
  (0 <= c)%Z
  /\ (2 * Z.abs (c * d - 100 * n) <= d)%Z
  /\ ((2 * Z.abs (c * d - 100 * n) = d)%Z -> Z.even c = true).
Proof.
  cbv zeta. unfold round_hundredths.
  set (n := Z.abs (Qnum q)). set (d := Zpos (Qden q)).
  assert (Hn : (0 <= n)%Z) by (unfold n; lia).
  assert (Hd : (0 < d)%Z) by (unfold d; lia).
  pose proof (Z.div_mod (n * 100) d ltac:(lia)) as Hdm.
  pose proof (Z.mod_pos_bound (n * 100) d Hd) as Hr.
  assert (Hk : (0 <= n * 100 / d)%Z) by (apply Z.div_pos; lia).
  set (k := (n * 100 / d)%Z) in *. set (r := ((n * 100) mod d)%Z) in *.
  cbv zeta.
  destruct (Z.ltb_spec (2 * r) d) as [H1|H1].
  - repeat split; [lia | nia | nia].
  - destruct (Z.ltb_spec d (2 * r)) as [H2|H2].
    + repeat split; [lia | nia | nia].
    + destruct (Z.even k) eqn:Ek.
      * repeat split; [lia | nia | auto].
      * repeat split; [lia | nia |]. intros _.
        rewrite Z.even_add, Ek. reflexivity.
Qed.

Lemma round_close (q : Q) :
  (0 <= Qnum q)%Z -> (Qabs ((round_hundredths q # 100) - q) <= 1 # 200)%Q.
Proof.
  intros Hq. destruct (round_cases q) as (_ & H & _). cbv zeta in H.
  rewrite (Z.abs_eq (Qnum q)) in H by exact Hq.
  destruct q as [n d]. cbn [Qnum Qden] in *.
  set (c := round_hundredths (n # d)) in *.
  apply Qabs_Qle_condition. unfold Qle, Qminus, Qplus, Qopp. cbn [Qnum Qden].
  split; lia.
Qed.

Lemma round_tie (q : Q) :
  (0 <= Qnum q)%Z ->
  (Qabs ((round_hundredths q # 100) - q) == 1 # 200)%Q ->
  Z.even (round_hundredths q) = true.
Proof.
  intros Hq H. destruct (round_cases q) as (_ & _ & He). cbv zeta in He.
  rewrite (Z.abs_eq (Qnum q)) in He by exact Hq. apply He. clear He.
  destruct q as [n d]. cbn [Qnum Qden] in *.
  set (c := round_hundredths (n # d)) in *.
  unfold Qminus, Qplus, Qopp, Qabs, Qeq in H. cbn [Qnum Qden] in H. lia.
Qed.

(** ** The exact value of a float *)

Lemma magnitude_exact (m : positive) (e : Z) :
  (magnitude m e == inject_Z (Zpos m) * Qpower 2 e)%Q.
Proof.
  unfold magnitude. destruct e as [|p|p].
  - cbn [Qpower]. rewrite Z.pow_0_r, Z.mul_1_r. ring.
  - rewrite inject_Z_mult. rewrite (Zpower_Qpower 2 (Zpos p)) by lia. reflexivity.
  - rewrite Qmake_Qdiv. unfold Qdiv. apply Qmult_comp; [reflexivity|].
    rewrite Pos2Z.inj_pow. rewrite (Zpower_Qpower 2 (Zpos p)) by lia.
    cbn [Qpower]. reflexivity.
Qed.

Lemma magnitude_pos (m : positive) (e : Z) : (0 < Qnum (magnitude m e))%Z.
Proof.
  unfold magnitude. destruct e as [|p|p]; cbn [Qnum inject_Z]; lia.
Qed.

(** The [begin] value written for a finite float reads back as a time within
    half a hundredth of the float's exact value, and as an even number of
    hundredths when the float lies half way between two. *)
Lemma begin_at_read (x : float) (q : Q) :
  exact x = Some q ->
  exists t,
    seconds (begin_at x) = Some t
    /\ (Qabs (t - q) <= 1 # 200)%Q
    /\ ((Qabs (t - q) == 1 # 200)%Q ->
        exists c : Z, (t == c # 100)%Q /\ Z.even c = true).
Proof.
  unfold exact, begin_at, format_02f. destruct (Prim2SF x) as [s|s| |s m e]; try discriminate.
  - intros [= <-]. eexists. split; [apply seconds_decimal; vm_compute; discriminate|].
    split; destruct s; vm_compute; try discriminate; intros H; discriminate H.
  - intros [= <-]. eexists. split.
    + apply seconds_decimal. apply (round_cases (magnitude m e)).
    + assert (Hpos : (0 <= Qnum (magnitude m e))%Z) by (pose proof (magnitude_pos m e); lia).
      pose proof (round_close (magnitude m e) Hpos) as H.
      pose proof (round_tie (magnitude m e) Hpos) as Ht.
      rewrite <- magnitude_exact.
      set (c := round_hundredths (magnitude m e)) in *. set (v := magnitude m e) in *.
      destruct s.
      * assert (E : (-1 * (c # 100) - -1 * v == - ((c # 100) - v))%Q) by ring.
        rewrite E, Qabs_opp. split; [exact H|]. intros Hq.
        exists (- c)%Z. split.
        -- unfold Qeq. cbn [Qnum Qden Qmult]. lia.
        -- rewrite Z.even_opp. now apply Ht.
      * assert (E : (1 * (c # 100) - 1 * v == (c # 100) - v)%Q) by ring.
        rewrite E. split; [exact H|]. intros Hq.
        exists c. split.
        -- unfold Qeq. cbn [Qnum Qden Qmult]. lia.
        -- now apply Ht.
Qed.

Section Flash.
Context {Lm : Libm}.

(** C2, as amended.  [flash(element, original_color, start_time, is_stroke)],
    called on an existing element with a [start_time] that is a float, or an
    int that converts to one, [x], registers exactly two animation steps,
    both against the element (through its id) and its [fill] property, or
    [stroke] when [is_stroke]: step A from [original_color] to the highlight
    colour [g], beginning at [x] written with two decimals and lasting
    ["1.0s"], and step B from [g] back to [original_color], beginning at the
    float sum [x + 1.0] written with two decimals and lasting ["1.2s"].  Both
    are appended to the store, to the drawing and to [anims], and the call
    returns the reference of step B.  The target keeps its attributes and has
    the id the steps refer to.  What is written for a finite float reads back
    as a time within half a hundredth of a second of its exact value, an even
    number of hundredths when the value lies half way between two; for an
    infinity or a NaN it is ["+infs"], ["+-infs"] or ["+nans"]. *)
Theorem flash_registers_two_steps
    (st : state) (element : ref) (e : Svg.element)
    (original_color : string) (start_time : num) (x : float) (is_stroke : bool) :
  heap st !! element = Some e ->
  id_ok e ->
  to_float start_time = Some x ->
  exists st' stepA stepB e',
    let a := length (heap st) in
    let prop := if is_stroke then "stroke" else "fill" in
    let href := "#" +:+ id_of st e in
    flash element original_color start_time is_stroke st = Some (S a, st')
    /\ stepA = step prop href original_color g (begin_at x) "1.0s"
    /\ stepB = step prop href g original_color (begin_at (x + 1)) "1.2s"
    /\ heap st' = heap (identified st element e) ++ [stepA; stepB]
    /\ heap st' !! a = Some stepA
    /\ heap st' !! S a = Some stepB
    /\ elements (dwg st') = elements (dwg st) ++ [a; S a]
    /\ anims st' = anims st ++ [a; S a]
    /\ all_lines st' = all_lines st
    /\ circle_elems st' = circle_elems st
    /\ files st' = files st
    /\ heap st' !! element = Some e'
    /\ attr e' "id" = Some (id_of st e)
    /\ without_id e' = without_id e
    /\ (forall y q, exact y = Some q ->
          exists t,
            seconds (begin_at y) = Some t
            /\ (Qabs (t - q) <= 1 # 200)%Q
            /\ ((Qabs (t - q) == 1 # 200)%Q ->
                exists c : Z, (t == c # 100)%Q /\ Z.even c = true))
    /\ (forall y, exact y = None ->
          begin_at y = "+infs" \/ begin_at y = "+-infs" \/ begin_at y = "+nans").
Proof.
  intros H Hid Hx.
  destruct (identified_lookup st element e H Hid) as (e' & He' & Hid').
  pose proof (identified_heap_length st element e) as Hlen.
  exists (flashed st element e original_color x is_stroke). do 2 eexists. exists e'.
  cbv zeta. split; [apply (flash_eq _ _ _ _ _ _ e H Hid Hx)|].
  split; [reflexivity|]. split; [reflexivity|].
  unfold flashed. cbn [heap dwg elements anims all_lines circle_elems files].
  repeat match goal with |- _ /\ _ => split end; try reflexivity.
  - rewrite <- Hlen. apply list_lookup_middle. reflexivity.
  - rewrite <- Hlen.
    change (?h ++ [?x; ?y]) with (h ++ [x] ++ [y]). rewrite app_assoc.
    apply list_lookup_middle. rewrite length_app. cbn. lia.
  - now apply lookup_app_l_Some.
  - unfold attr. now rewrite Hid'.
  - revert He'. unfold identified, id_of in *.
    destruct (attribs e !! "id") as [v|] eqn:Ev.
    + rewrite H. now intros [= ->].
    + destruct st as [h ? ? ? ? ? ?]. cbn in *.
      rewrite list_lookup_insert_eq by (eapply lookup_lt_Some; eauto).
      intros [= <-]. unfold without_id. cbn. f_equal.
      rewrite delete_insert_eq. reflexivity.
  - intros y q. apply begin_at_read.
  - intros y. unfold exact, begin_at, format_02f.
    destruct (Prim2SF y) as [s0|[|]| |s0 m0 e0]; try discriminate; auto.
Qed.

(** The scenario of the specification: a grey node flashed from time 0.0. *)
Example flash_scenario :
  (fun r => (fst r, map render (heap (snd r)), anims (snd r), elements (dwg (snd r))))
    <$> flash 0 n (Float 0) false
          (State [Element "circle" (<["fill" := VStr n]> ∅)] 1
                 (Drawing_init None None) [] [] [] [])
  = Some (2,
          map render
            [Element "circle" (<["id" := VStr "id1"]> (<["fill" := VStr n]> ∅));
             step "fill" "#id1" n g "+0.00s" "1.0s";
             step "fill" "#id1" g n "+1.00s" "1.2s"],
          [1; 2], [1; 2]).
Proof. vm_compute. reflexivity. Qed.

(** Float addition is not exact, and the two decimals are those of the float:
    [flash(e, c, 0.005)] writes ["+0.01s"] and ["+1.00s"]. *)
Example flash_rounding :
  begin_at 0x1.47ae147ae147bp-8 = "+0.01s"
  /\ begin_at (0x1.47ae147ae147bp-8 + 1) = "+1.00s".
Proof. split; vm_compute; reflexivity. Qed.

End Flash.

(** ** The chaining loop, from any state *)

Section Chain.
Context {Lm : Libm}.

Lemma begin_of_insert st (r : ref) k v e (r' : ref) :
  heap st !! r = Some e -> k <> "begin" ->
  begin_of (with_heap (<[r := Element (elementname e) (<[k := v]> (attribs e))]> (heap st)) st) r'
  = begin_of st r'.
Proof.
  intros H Hk. unfold begin_of. cbn [heap with_heap].
  destruct (Nat.eq_dec r r') as [<-|Hne].
  - rewrite list_lookup_insert_eq by (eapply lookup_lt_Some; eauto).
    rewrite H. unfold attr. cbn [attribs]. now rewrite lookup_insert_ne.
  - now rewrite list_lookup_insert_ne.
Qed.

Lemma begin_of_identified st r e r' :
  heap st !! r = Some e -> begin_of (identified st r e) r' = begin_of st r'.
Proof.
  intros H. unfold identified.
  destruct (attribs e !! "id"); [reflexivity|].
  unfold begin_of at 1. cbn [heap with_heap with_nextid].
  change (match <[r:=_]> (heap st) !! r' with Some e0 => attr e0 "begin" | None => None end)
    with (begin_of (with_heap (<[r:=Element (elementname e)
                                  (<["id":=VStr (id_of st e)]> (attribs e))]> (heap st)) st) r').
  now apply begin_of_insert.
Qed.

Lemma begin_of_Some st (r : ref) b :
  begin_of st r = Some b ->
  exists e, heap st !! r = Some e /\ attribs e !! "begin" = Some (VStr b)
            /\ getitem r "begin" st = Some (VStr b, st).
Proof.
  unfold begin_of, attr, getitem, bind, get_state, lift.
  destruct (heap st !! r) as [e|]; [|discriminate].
  destruct (attribs e !! "begin") as [[s'| |]|] eqn:E; try discriminate.
  intros [= ->]. exists e. rewrite E. auto.
Qed.

(** Once the final step has its id, [final_ok] no longer depends on the
    counter. *)
Lemma final_ok_identified final fid st ef :
  heap st !! final = Some ef -> id_ok ef -> id_of st ef = fid ->
  exists ef', heap (identified st final ef) !! final = Some ef'
              /\ attribs ef' !! "id" = Some (VStr fid).
Proof. intros H Hid <-. now apply identified_lookup. Qed.

Lemma chain_begin_eq final fid (anim : ref) st b :
  final_ok final fid st -> begin_of st anim = Some b ->
  exists st',
    chain_begin final anim st = Some (tt, st')
    /\ begin_of st' anim = Some (b +:+ "; " +:+ fid +:+ ".end" +:+ b)
    /\ (forall r : ref, r <> anim -> begin_of st' r = begin_of st r)
    /\ final_ok final fid st'
    /\ anims st' = anims st /\ elements (dwg st') = elements (dwg st)
    /\ length (heap st') = length (heap st).
Proof.
  intros (ef & Hf & Hid & Hfid) Hb.
  destruct (begin_of_Some st anim b Hb) as (e & He & Hbe & Hget).
  set (st1 := identified st final ef).
  assert (Hb1 : begin_of st1 anim = Some b)
    by (unfold st1; now rewrite begin_of_identified).
  destruct (begin_of_Some st1 anim b Hb1) as (e1 & He1 & Hbe1 & Hget1).
  destruct (final_ok_identified final fid st ef Hf Hid Hfid) as (ef1 & Hf1 & Hid1).
  fold st1 in Hf1.
  destruct (identified_frame st final ef) as (Hd & _ & _ & Ha & _). fold st1 in Hd, Ha.
  pose proof (identified_heap_length st final ef) as Hlen. fold st1 in Hlen.
  eexists. split.
  { unfold chain_begin.
    rewrite (bind_Some _ _ _ _ _ Hget). cbn [as_str]. rewrite bind_lift.
    rewrite (bind_Some _ _ _ _ _ (get_id_eq final st ef Hf Hid)). rewrite Hfid. fold st1.
    rewrite (bind_Some _ _ _ _ _ Hget1). cbn [as_str]. rewrite bind_lift.
    apply (setitem_eq anim "begin" _ st1 e1 He1). }
  assert (Hlt : anim < length (heap st1)) by (eapply lookup_lt_Some; eauto).
  repeat match goal with |- _ /\ _ => split end.
  - unfold begin_of. cbn [heap with_heap]. rewrite list_lookup_insert_eq by exact Hlt.
    unfold attr. cbn [attribs]. now rewrite lookup_insert_eq.
  - intros r Hr. unfold begin_of at 1. cbn [heap with_heap].
    rewrite list_lookup_insert_ne by congruence.
    change (begin_of st1 r = begin_of st r). unfold st1. now apply begin_of_identified.
  - unfold final_ok. cbn [heap with_heap].
    destruct (Nat.eq_dec anim final) as [->|Hne].
    + rewrite list_lookup_insert_eq by exact Hlt. eexists. split; [reflexivity|].
      assert (e1 = ef1) as -> by congruence.
      assert (Hi : <["begin" := VStr (b +:+ "; " +:+ fid +:+ ".end" +:+ b)]> (attribs ef1) !! "id"
                   = Some (VStr fid)) by now rewrite lookup_insert_ne.
      split.
      * intros v Hv. cbn [attribs] in Hv. rewrite Hi in Hv. injection Hv as <-. eauto.
      * unfold id_of. cbn [attribs]. now rewrite Hi.
    + rewrite list_lookup_insert_ne by exact Hne. exists ef1. split; [exact Hf1|]. split.
      * intros v Hv. rewrite Hid1 in Hv. injection Hv as <-. eauto.
      * unfold id_of. now rewrite Hid1.
  - exact Ha.
  - cbn [dwg with_heap]. now rewrite Hd.
  - cbn [heap with_heap]. now rewrite length_insert.
Qed.

Lemma chain_loop final fid (l : list ref) :
  forall st,
    NoDup l -> final_ok final fid st ->
    (forall r, r ∈ l -> is_Some (begin_of st r)) ->
    exists st',
      for_each l (chain_begin final) st = Some (tt, st')
      /\ (forall r b, r ∈ l -> begin_of st r = Some b ->
            begin_of st' r = Some (b +:+ "; " +:+ fid +:+ ".end" +:+ b))
      /\ (forall r : ref, r ∉ l -> begin_of st' r = begin_of st r)
      /\ final_ok final fid st'
      /\ anims st' = anims st /\ elements (dwg st') = elements (dwg st)
      /\ length (heap st') = length (heap st).
Proof.
  induction l as [|a l IH]; intros st Hnd Hf Hb.
  - exists st. cbn. repeat split; auto. intros r b Hr. inversion Hr.
  - apply NoDup_cons in Hnd as [Ha Hnd].
    destruct (Hb a (list_elem_of_here _ _)) as [b Hba].
    destruct (chain_begin_eq final fid a st b Hf Hba)
      as (st1 & Hrun & Hnew & Hold & Hf1 & Han1 & Hel1 & Hlen1).
    destruct (IH st1 Hnd Hf1) as (st' & Hrun' & Hnew' & Hold' & Hf' & Han' & Hel' & Hlen').
    { intros r Hr. rewrite Hold; [apply Hb; now right|]. intros ->. contradiction. }
    exists st'. split.
    { cbn [for_each]. now rewrite (bind_Some _ _ _ _ _ Hrun). }
    repeat match goal with |- _ /\ _ => split end; try congruence.
    + intros r b' Hr Hrb. apply elem_of_cons in Hr as [->|Hr].
      * rewrite Hold' by exact Ha. congruence.
      * apply Hnew'; [exact Hr|]. rewrite Hold; [exact Hrb|]. intros ->. contradiction.
    + intros r Hr. apply not_elem_of_cons in Hr as [Hra Hr].
      rewrite Hold' by exact Hr. now apply Hold.
Qed.

Lemma chain_contains (fid b : string) :
  contains (fid +:+ ".end") (b +:+ "; " +:+ fid +:+ ".end" +:+ b).
Proof. exists (b +:+ "; "), b. now rewrite !string_app_assoc. Qed.

(** X1.  From every state in which the registered steps are distinct
    objects with a [begin] string and [final] is an element whose id is, or
    will be, [fid], the loop of lines 133-134 ends; it gives every
    registered step the [begin] value ["<old>; <fid>.end<old>"], which
    contains ["<fid>.end"], and leaves the [begin] of every other object,
    the list [anims] and the drawing's element list as they were. *)
Theorem chain_rewrites_every_step (st : state) (final : ref) (fid : string) :
  NoDup (anims st) ->
  final_ok final fid st ->
  (forall r, r ∈ anims st -> is_Some (begin_of st r)) ->
  exists st',
    chain final st = Some (tt, st')
    /\ anims st' = anims st
    /\ elements (dwg st') = elements (dwg st)
    /\ final_ok final fid st'
    /\ (forall r b, r ∈ anims st -> begin_of st r = Some b ->
          begin_of st' r = Some (b +:+ "; " +:+ fid +:+ ".end" +:+ b)
          /\ contains (fid +:+ ".end") (b +:+ "; " +:+ fid +:+ ".end" +:+ b))
    /\ (forall r : ref, r ∉ anims st -> begin_of st' r = begin_of st r).
Proof.
  intros Hnd Hf Hb.
  destruct (chain_loop final fid (anims st) st Hnd Hf Hb)
    as (st' & Hrun & Hnew & Hold & Hf' & Han & Hel & _).
  exists st'. repeat match goal with |- _ /\ _ => split end; auto.
  intros r b Hr Hrb. split; [now apply Hnew | apply chain_contains].
Qed.

Lemma step_id prop href from to begin dur :
  attribs (step prop href from to begin dur) !! "id" = None.
Proof. reflexivity. Qed.

Lemma step_begin prop href from to begin dur :
  attr (step prop href from to begin dur) "begin" = Some begin.
Proof. reflexivity. Qed.

End Chain.

(** ** Geometry *)

Section Generic.
Context {Lm : Libm}.

Lemma sub_float_r (a : num) (x f : float) :
  to_float a = Some x -> sub a (Float f) = Some (Float (x - f)).
Proof.
  destruct a as [z|y]; cbn [sub to_float]; intros H.
  - rewrite H. reflexivity.
  - injection H as ->. reflexivity.
Qed.

Lemma mul_float_l (b : num) (c y : float) :
  to_float b = Some y -> mul (Float c) b = Some (Float (c * y)).
Proof. cbn [mul to_float]. now intros ->. Qed.

Lemma add_float_None (a : num) (f : float) : to_float a = None -> add a (Float f) = None.
Proof. destruct a; cbn [add to_float]; [now intros -> | discriminate]. Qed.

Lemma sub_float_None (a : num) (f : float) : to_float a = None -> sub a (Float f) = None.
Proof. destruct a; cbn [sub to_float]; [now intros -> | discriminate]. Qed.

Lemma mul_float_None (b : num) (c : float) : to_float b = None -> mul (Float c) b = None.
Proof. cbn [mul to_float]. now intros ->. Qed.

(** Line 44: the argument of [math.cos] and [math.sin] on pass [i]. *)
Lemma angle_eq (i : nat) :
  i < 6 ->
  (t ← mul (Int 2) math_pi; u ← mul t (Int (Z.of_nat i)); truediv u 6)
  = Some (Float (angle i)).
Proof. intros H. do 6 (destruct i as [|i]; [vm_compute; reflexivity|]). lia. Qed.

Lemma angle_finite (i : nat) : i < 6 -> is_infinity (angle i) = false.
Proof. intros H. do 6 (destruct i as [|i]; [vm_compute; reflexivity|]). lia. Qed.

(** On a finite argument the library's result passes CPython's test. *)
Lemma math_cos_finite (x : float) :
  is_finite x = true ->
  math_cos (Float x) = Some (Float (libm_cos x))
  /\ math_sin (Float x) = Some (Float (libm_sin x))
  /\ domain_error x (libm_cos x) = false
  /\ domain_error x (libm_sin x) = false.
Proof.
  intros H. pose proof (libm_cos_finite x H) as Hc. pose proof (libm_sin_finite x H) as Hs.
  unfold math_cos, math_sin, domain_error. cbn [to_float mbind option_bind].
  unfold is_finite in *.
  destruct (is_nan x), (is_infinity x); try discriminate H.
  destruct (is_nan (libm_cos x)), (is_infinity (libm_cos x)); try discriminate Hc.
  destruct (is_nan (libm_sin x)), (is_infinity (libm_sin x)); try discriminate Hs.
  auto.
Qed.

(** The assumptions on the library can be met. *)
Lemma libm_exists : inhabited Libm.
Proof.
  constructor.
  refine {| libm_cos := fun x => if is_finite x then 1%float else nan;
            libm_sin := fun x => if is_finite x then 0%float else nan |}.
  - intros x ->. reflexivity.
  - intros x ->. reflexivity.
  - intros x H. unfold is_finite. rewrite H, orb_true_r. reflexivity.
  - intros x H. unfold is_finite. rewrite H, orb_true_r. reflexivity.
Qed.

Lemma math_cos_angle (i : nat) :
  i < 6 -> math_cos (Float (angle i)) = Some (Float (libm_cos (angle i))).
Proof. intros H. unfold math_cos. cbn [to_float mbind option_bind]. now rewrite angle_finite. Qed.

Lemma math_sin_angle (i : nat) :
  i < 6 -> math_sin (Float (angle i)) = Some (Float (libm_sin (angle i))).
Proof. intros H. unfold math_sin. cbn [to_float mbind option_bind]. now rewrite angle_finite. Qed.

(** The passes of the loop of lines 43-46 when nothing raises. *)
Lemma ring_loop (x y big_r : num) (fx fy fr : float) (l : list nat) :
  to_float x = Some fx -> to_float y = Some fy -> to_float big_r = Some fr ->
  Forall (fun i => i < 6) l ->
  forall acc,
    fold_left
      (fun out i =>
         out ← out;
         a ← (t ← mul (Int 2) math_pi; u ← mul t (Int (Z.of_nat i)); truediv u 6);
         ox ← (c ← math_cos a; d ← mul c big_r; add x d);
         oy ← (s ← math_sin a; d ← mul s big_r; sub y d);
         Some (out ++ [(ox, oy)]))
      l (Some acc)
    = Some (acc ++ map (ring_point fx fy fr) l).
Proof.
  intros Hx Hy Hr Hl. induction Hl as [|i l Hi Hl IH]; intros acc.
  - cbn. now rewrite app_nil_r.
  - cbn [fold_left map]. cbn [mbind option_bind].
    rewrite (angle_eq i Hi). cbn [mbind option_bind].
    rewrite (math_cos_angle i Hi), (math_sin_angle i Hi). cbn [mbind option_bind].
    rewrite !(mul_float_l big_r _ fr Hr). cbn [mbind option_bind].
    rewrite (add_float_r x fx _ Hx), (sub_float_r y fy _ Hy). cbn [mbind option_bind].
    rewrite IH, <- app_assoc. reflexivity.
Qed.

(** Once a pass has raised, the loop is over. *)
Lemma ring_loop_raised (x y big_r : num) (l : list nat) :
  fold_left
    (fun out i =>
       out ← out;
       a ← (t ← mul (Int 2) math_pi; u ← mul t (Int (Z.of_nat i)); truediv u 6);
       ox ← (c ← math_cos a; d ← mul c big_r; add x d);
       oy ← (s ← math_sin a; d ← mul s big_r; sub y d);
       Some (out ++ [(ox, oy)]))
    l None
  = None.
Proof. induction l as [|i l IH]; [reflexivity | exact IH]. Qed.

Lemma center_list_eq (x y big_r : num) :
  center_list (x, y) big_r
  = (fx ← to_float x; fy ← to_float y; fr ← to_float big_r;
     Some (map (ring_point fx fy fr) (seq 0 6))).
Proof.
  unfold center_list.
  destruct (to_float big_r) as [fr|] eqn:Hr.
  - destruct (to_float x) as [fx|] eqn:Hx.
    + destruct (to_float y) as [fy|] eqn:Hy.
      * cbn [mbind option_bind].
        rewrite (ring_loop x y big_r fx fy fr (seq 0 6) Hx Hy Hr); [reflexivity|].
        apply Forall_forall. intros i Hi. apply list_elem_of_In, in_seq in Hi. lia.
      * cbn [mbind option_bind seq fold_left].
        rewrite (angle_eq 0) by lia. cbn [mbind option_bind].
        rewrite (math_cos_angle 0), (math_sin_angle 0) by lia. cbn [mbind option_bind].
        rewrite !(mul_float_l big_r _ fr Hr). cbn [mbind option_bind].
        rewrite (add_float_r x fx _ Hx), (sub_float_None y _ Hy). cbn [mbind option_bind].
        apply (ring_loop_raised x y big_r [1; 2; 3; 4; 5]).
    + cbn [mbind option_bind seq fold_left].
      rewrite (angle_eq 0) by lia. cbn [mbind option_bind].
      rewrite (math_cos_angle 0) by lia. cbn [mbind option_bind].
      rewrite !(mul_float_l big_r _ fr Hr). cbn [mbind option_bind].
      rewrite (add_float_None x _ Hx). cbn [mbind option_bind].
      apply (ring_loop_raised x y big_r [1; 2; 3; 4; 5]).
  - assert (H : (fx ← to_float x; fy ← to_float y; fr ← @None float;
                 Some (map (ring_point fx fy fr) (seq 0 6))) = None)
      by (destruct (to_float x), (to_float y); reflexivity).
    rewrite H. cbn [mbind option_bind seq fold_left].
    rewrite (angle_eq 0) by lia. cbn [mbind option_bind].
    rewrite (math_cos_angle 0) by lia. cbn [mbind option_bind].
    rewrite (mul_float_None big_r _ Hr). cbn [mbind option_bind].
    apply (ring_loop_raised x y big_r [1; 2; 3; 4; 5]).
Qed.

Lemma center_list_length (c : point) (big_r : num) (ring : list point) :
  center_list c big_r = Some ring -> length ring = 6.
Proof.
  destruct c as [x y]. rewrite center_list_eq.
  destruct (to_float x), (to_float y), (to_float big_r); try discriminate.
  cbn [mbind option_bind]. intros [= <-]. reflexivity.
Qed.

(** Lines 50-52 do not raise. *)
Lemma globals_computed :
  center_list center big_radius = Some ring_centers
  /\ sub cx fan_dist = Some (fst outer_left)
  /\ add cx fan_dist = Some (fst outer_right).
Proof. repeat split. Qed.


End Generic.

(** *** The exact formula is out of reach of floats *)



(** * Further properties of the script *)

(** Unfolds the field updates of a state. *)
Ltac state_fields :=
  unfold with_heap, with_nextid, with_dwg, with_all_lines, with_circle_elems,
         with_anims, with_files;
  cbn [heap nextid dwg all_lines circle_elems anims files
       filename width height elements elementname attribs].

(** ** The guards of the ring loop *)

Lemma mod3_cases i : i mod 3 = 0 \/ i mod 3 = 1 \/ i mod 3 = 2.
Proof. pose proof (Nat.mod_upper_bound i 3). lia. Qed.

Lemma skip_false_iff i j : skip i j = false <-> i < j /\ one_multiple_of_3 i j.
Proof.
  unfold skip, one_multiple_of_3.
  destruct (Nat.ltb_spec j i); [cbn; split; [discriminate | lia]|].
  destruct (Nat.eqb_spec i j); [cbn; split; [discriminate | lia]|].
  cbn [orb].
  destruct (mod3_cases i) as [Hi|[Hi|Hi]], (mod3_cases j) as [Hj|[Hj|Hj]];
    rewrite Hi, Hj; cbn [Nat.eqb andb];
    destruct (Nat.eqb_spec i 0), (Nat.eqb_spec j 3),
             (Nat.eqb_spec i 3), (Nat.eqb_spec j 0);
    cbn [andb]; split; intros;
    first [discriminate | reflexivity | lia | exfalso; lia
          | exfalso; subst; cbn in *; congruence].
Qed.

(** X2.  The guards of lines 66-77 let a pair [(i, j)] through exactly when
    [i < j] and exactly one of [i] and [j] is a multiple of 3.  So no node
    is joined to itself, no pair is drawn in both directions, and the last
    two guards (lines 74-77) never decide: whenever the condition of one of
    them holds, that of line 66 or of line 68 holds already. *)
Theorem skip_joins_classes (i j : nat) :
  (skip i j = false <-> i < j /\ one_multiple_of_3 i j)
  /\ skip i i = true
  /\ (skip i j = true \/ skip j i = true)
  /\ implb (((i =? 0) && (j =? 3)) || ((i =? 3) && (j =? 0)))
           ((j <? i) || (i =? j) || (i mod 3 =? j mod 3)) = true.
Proof.
  split; [apply skip_false_iff|]. split; [|split].
  - destruct (skip i i) eqn:E; [reflexivity|]. apply skip_false_iff in E. lia.
  - destruct (skip i j) eqn:E; [now left|]. right.
    destruct (skip j i) eqn:E'; [reflexivity|]. apply skip_false_iff in E, E'. lia.
  - destruct (Nat.eqb_spec i 0) as [Hi|]; destruct (Nat.eqb_spec j 3) as [Hj|];
      destruct (Nat.eqb_spec i 3) as [Hi'|]; destruct (Nat.eqb_spec j 0) as [Hj'|];
      try reflexivity; try lia; subst; reflexivity.
Qed.

(** ** The ring loop on a ring of any length *)

Section AnyRing.
Context {Lm : Libm}.

Lemma zip_seq {A} (d : A) (l : list A) k :
  zip (seq k (length l)) l = map (fun i => (i, nth (i - k) l d)) (seq k (length l)).
Proof.
  revert k. induction l as [|a l IH]; intros k; [reflexivity|].
  cbn [length seq zip zip_with map]. rewrite Nat.sub_diag. cbn [nth]. f_equal.
  change (zip_with pair (seq (S k) (length l)) l) with (zip (seq (S k) (length l)) l).
  rewrite IH. apply map_ext_in. intros i Hi. apply in_seq in Hi.
  replace (i - k) with (S (i - S k)) by lia. reflexivity.
Qed.

Lemma enumerate_nth {A} (d : A) (l : list A) :
  enumerate l = map (fun i => (i, nth i l d)) (seq 0 (length l)).
Proof.
  unfold enumerate. rewrite (zip_seq d). apply map_ext. intros i.
  now rewrite Nat.sub_0_r.
Qed.

Lemma row_lines_pairs (ring : list point) i (js : list nat) :
  row_lines i (nth i ring (Int 0, Int 0)) (map (fun j => (j, nth j ring (Int 0, Int 0))) js)
  = map (ends ring) (filter (fun p => skip (fst p) (snd p) = false) (map (pair i) js)).
Proof.
  induction js as [|j js IH]; [reflexivity|].
  cbn [map]. rewrite filter_cons. cbn [fst snd].
  unfold row_lines in *. cbn [omap list_omap fst snd].
  destruct (skip i j) eqn:E.
  - rewrite decide_False by discriminate. exact IH.
  - rewrite decide_True by reflexivity. cbn [map]. now rewrite <- IH.
Qed.

Lemma rows_pairs (ring : list point) (is_ js : list nat) :
  flat_map (fun ic => row_lines (fst ic) (snd ic)
                        (map (fun j => (j, nth j ring (Int 0, Int 0))) js))
           (map (fun i => (i, nth i ring (Int 0, Int 0))) is_)
  = map (ends ring) (filter (fun p => skip (fst p) (snd p) = false) (list_prod is_ js)).
Proof.
  induction is_ as [|i is_ IH]; [reflexivity|].
  cbn [map flat_map list_prod fst snd].
  rewrite filter_app, map_app, <- IH.
  f_equal. apply row_lines_pairs.
Qed.

Lemma loop_lines_pairs (ring : list point) :
  loop_lines ring = map (ends ring) (ring_pairs (length ring)).
Proof.
  unfold loop_lines, ring_pairs.
  rewrite (enumerate_nth (A := point) (Int 0, Int 0)). apply rows_pairs.
Qed.

Lemma row_sorted a k m : StronglySorted lex_lt (map (pair a) (seq k m)).
Proof.
  revert k. induction m as [|m IH]; intros k; cbn [seq map]; constructor.
  - apply IH.
  - apply Forall_forall. intros p Hp. apply list_elem_of_In, in_map_iff in Hp as (j & <- & Hj).
    apply in_seq in Hj. right. cbn. lia.
Qed.

Lemma list_prod_sorted a n m :
  StronglySorted lex_lt (list_prod (seq a n) (seq 0 m)).
Proof.
  revert a. induction n as [|n IH]; intros a; cbn [seq list_prod]; [constructor|].
  apply StronglySorted_app_2; [|apply row_sorted|apply IH].
  intros p q Hp Hq.
  apply list_elem_of_In, in_map_iff in Hp as (j & <- & _).
  destruct q as [i' j']. apply list_elem_of_In, in_prod_iff in Hq as [Hi _].
  apply in_seq in Hi. left. cbn. lia.
Qed.

Lemma sorted_filter {A} (R : A -> A -> Prop) (P : A -> Prop) `{forall x, Decision (P x)} l :
  StronglySorted R l -> StronglySorted R (filter P l).
Proof.
  induction 1 as [|x l Hl IH Hx]; [constructor|].
  rewrite filter_cons. destruct (decide (P x)); [|exact IH].
  constructor; [exact IH|].
  apply Forall_forall. intros y Hy. apply list_elem_of_filter in Hy as [_ Hy].
  rewrite Forall_forall in Hx. now apply Hx.
Qed.

(** X3.  On a ring of any length and from any state the loop of lines 64-80
    ends without error and draws, as new stroked lines appended to the
    drawing and to [all_lines], one edge for each index pair it lets
    through, in lexicographic order of the pairs; the pairs are those with
    [i < j < len(ring)] in which exactly one index is a multiple of 3. *)
Theorem ring_edges_any_ring (ring : list point) (st : state) :
  ring_edges ring st
  = Some (tt, with_lines st (map (ends ring) (ring_pairs (length ring))))
  /\ StronglySorted lex_lt (ring_pairs (length ring))
  /\ (forall i j, (i, j) ∈ ring_pairs (length ring)
                  <-> i < j /\ j < length ring /\ one_multiple_of_3 i j).
Proof.
  split; [|split].
  - rewrite ring_edges_eq. now rewrite loop_lines_pairs.
  - apply sorted_filter, list_prod_sorted.
  - intros i j. rewrite ring_pairs_elem, skip_false_iff. intuition lia.
Qed.

End AnyRing.

(** ** The node loop *)

Section Circles.
Context {Lm : Libm}.

Lemma with_circles_nil st : with_circles st [] = st.
Proof.
  unfold with_circles. destruct st as [h i [f w hh es] al ce an fs]. cbn.
  now rewrite !app_nil_r.
Qed.

Lemma with_circles_app st l1 l2 :
  with_circles (with_circles st l1) l2 = with_circles st (l1 ++ l2).
Proof.
  unfold with_circles. cbn [heap nextid dwg all_lines circle_elems anims files
                            filename width height elements].
  rewrite map_app, !length_app, length_map, seq_app, <- !app_assoc. reflexivity.
Qed.

(** The body of the loop of lines 83-85 on node [(i, c)]. *)
Lemma circle_body_eq i c fill st :
  center_colors !! i = Some fill ->
  (let* fill := lift (center_colors !! i) in
   let* c0 := dwg_circle c node_radius fill in
   let* elem := dwg_add c0 in
   circle_elems_append elem) st
  = Some (tt, with_circles st [(c, fill)]).
Proof.
  intros H. rewrite H. rewrite bind_lift.
  unfold dwg_circle. rewrite (bind_Some _ _ _ _ _ (new_eq _ _)).
  unfold dwg_add, circle_elems_append. cbn [bind get_state modify ret]. state_fields.
  reflexivity.
Qed.

Lemma circle_body_raises i c st :
  center_colors !! i = None ->
  (let* fill := lift (center_colors !! i) in
   let* c0 := dwg_circle c node_radius fill in
   let* elem := dwg_add c0 in
   circle_elems_append elem) st
  = None.
Proof. intros H. now rewrite H. Qed.

Lemma ring_circles_from (l : list point) :
  forall k st,
    for_each (zip (seq k (length l)) l) (fun '(i, c) =>
      let* fill := lift (center_colors !! i) in
      let* c0 := dwg_circle c node_radius fill in
      let* elem := dwg_add c0 in
      circle_elems_append elem) st
    = if k + length l <=? length center_colors
      then Some (tt, with_circles st (zip l (drop k center_colors)))
      else if length center_colors <? k then
        match l with [] => Some (tt, st) | _ => None end
      else None.
Proof.
  induction l as [|c l IH]; intros k st.
  - cbn [length zip zip_with seq for_each ret]. rewrite with_circles_nil.
    rewrite Nat.add_0_r.
    destruct (Nat.leb_spec k (length center_colors)); [reflexivity|].
    destruct (Nat.ltb_spec (length center_colors) k); [reflexivity | lia].
  - cbn [length seq zip zip_with for_each].
    change (zip_with pair (seq (S k) (length l)) l) with (zip (seq (S k) (length l)) l).
    assert (Hd : {fill | center_colors !! k = Some fill} + {center_colors !! k = None})
      by (destruct (center_colors !! k); eauto).
    destruct Hd as [[fill E]|E].
    + rewrite (bind_Some _ _ _ _ _ (circle_body_eq k c fill st E)).
      rewrite IH. apply lookup_lt_Some in E as Hk.
      replace (S k + length l) with (k + S (length l)) by lia.
      destruct (Nat.leb_spec (k + S (length l)) (length center_colors)).
      * rewrite with_circles_app. rewrite (drop_S _ _ _ E). reflexivity.
      * destruct (Nat.ltb_spec (length center_colors) (S k)); [lia|].
        destruct (Nat.ltb_spec (length center_colors) k); [lia | reflexivity].
    + unfold bind at 1. rewrite (circle_body_raises k c st E).
      apply lookup_ge_None in E.
      destruct (Nat.leb_spec (k + S (length l)) (length center_colors)); [lia|].
      destruct (Nat.ltb_spec (length center_colors) k); reflexivity.
Qed.

Lemma ring_circles_eq (ring : list point) (st : state) :
  ring_circles ring st
  = if length ring <=? length center_colors
    then Some (tt, with_circles st (zip ring center_colors))
    else None.
Proof.
  unfold ring_circles, enumerate. rewrite ring_circles_from.
  cbn [Nat.add drop].
  destruct (Nat.leb_spec (length ring) (length center_colors)); reflexivity.
Qed.

(** X4.  From any state the loop of lines 83-85 on a ring of at most six
    points ends without error and appends, for the i-th point, one circle of
    radius [node_radius] filled with [center_colors[i]] to the store, to the
    drawing and to [circle_elems]; on a longer ring, and only then, it raises
    (the index error of [center_colors[i]]).  On the points [center_list]
    returns, whatever the centre and the radius, it never raises. *)
Theorem ring_circles_bounds (ring : list point) (st : state) :
  ring_circles ring st
  = (if length ring <=? length center_colors
     then Some (tt, with_circles st (zip ring center_colors))
     else None)
  /\ (ring_circles ring st = None <-> length center_colors < length ring)
  /\ (forall c big_r points,
        center_list c big_r = Some points ->
        ring_circles points st
        = Some (tt, with_circles st (zip points center_colors))).
Proof.
  split; [apply ring_circles_eq|]. split.
  - rewrite ring_circles_eq.
    destruct (Nat.leb_spec (length ring) (length center_colors)); split; intros H';
      first [discriminate H' | reflexivity | lia | exfalso; lia].
  - intros c big_r points H. rewrite ring_circles_eq, (center_list_length c big_r points H).
    reflexivity.
Qed.

End Circles.

(** ** What a flash leaves alone, and the ids *)

Lemma digits_inj (a b : N) : digits a = digits b -> a = b.
Proof.
  unfold digits. intros H.
  assert (Hn : forall n : N, N.to_uint n <> Decimal.Nil).
  { intros [|p]; [discriminate | apply DecimalPos.Unsigned.to_uint_nonnil]. }
  apply DecimalN.Unsigned.to_uint_inj.
  pose proof (NilZero.usu _ (Hn a)) as Ha. pose proof (NilZero.usu _ (Hn b)) as Hb.
  rewrite H in Ha. congruence.
Qed.

Lemma auto_id_inj (a b : nat) :
  "id" +:+ digits (N.of_nat a) = "id" +:+ digits (N.of_nat b) -> a = b.
Proof.
  intros H. injection H as H. apply digits_inj in H. lia.
Qed.

Section Ids.
Context {Lm : Libm}.

Lemma ids_unique_ok st (r : ref) e :
  ids_unique st -> heap st !! r = Some e -> id_ok e.
Proof. intros [H _] Hr v Hv. destruct (H r e v Hr Hv) as (k & _ & ->). eauto. Qed.

(** What [get_id] does to the objects of the store. *)
Lemma identified_elements st (el : ref) e (r : ref) e0 :
  heap st !! el = Some e -> heap st !! r = Some e0 ->
  exists e1,
    heap (identified st el e) !! r = Some e1
    /\ without_id e1 = without_id e0
    /\ (r <> el -> e1 = e0)
    /\ (forall v, attribs e0 !! "id" = Some v -> e1 = e0).
Proof.
  intros He Hr. unfold identified.
  destruct (attribs e !! "id") as [v0|] eqn:Ev.
  - exists e0. repeat split; auto.
  - unfold with_heap, with_nextid. cbn [heap].
    destruct (Nat.eq_dec r el) as [->|Hne].
    + assert (e0 = e) as -> by congruence.
      rewrite list_lookup_insert_eq by (eapply lookup_lt_Some; eauto).
      eexists. split; [reflexivity|]. repeat split.
      * unfold without_id. cbn. now rewrite delete_insert_eq.
      * intros H. contradiction.
      * intros v Hv. congruence.
    + rewrite list_lookup_insert_ne by congruence.
      exists e0. repeat split; auto.
Qed.

Lemma identified_unique st (el : ref) e :
  ids_unique st -> heap st !! el = Some e -> ids_unique (identified st el e).
Proof.
  intros [Hk Hu] He. unfold identified, id_of.
  destruct (attribs e !! "id") as [v0|] eqn:Ev; [now split|].
  assert (Hlt : el < length (heap st)) by (eapply lookup_lt_Some; eauto).
  unfold ids_unique, with_heap, with_nextid. cbn [heap nextid]. split.
  - intros r e1 v Hr Hv.
    destruct (Nat.eq_dec el r) as [<-|Hne].
    + rewrite list_lookup_insert_eq in Hr by exact Hlt. injection Hr as <-.
      cbn [attribs] in Hv. rewrite lookup_insert_eq in Hv. injection Hv as <-.
      exists (nextid st). split; [lia | reflexivity].
    + rewrite list_lookup_insert_ne in Hr by exact Hne.
      destruct (Hk r e1 v Hr Hv) as (k & Hk' & ->). exists k. split; [lia | reflexivity].
  - intros r1 r2 e1 e2 v H1 H2 Hv1 Hv2.
    destruct (Nat.eq_dec el r1) as [<-|Hne1], (Nat.eq_dec el r2) as [<-|Hne2];
      [reflexivity| | |].
    + rewrite list_lookup_insert_eq in H1 by exact Hlt. injection H1 as <-.
      cbn [attribs] in Hv1. rewrite lookup_insert_eq in Hv1. injection Hv1 as <-.
      rewrite list_lookup_insert_ne in H2 by exact Hne2.
      destruct (Hk r2 e2 _ H2 Hv2) as (k & Hk' & Hid).
      assert (Hid' : "id" +:+ digits (N.of_nat (nextid st)) = "id" +:+ digits (N.of_nat k))
        by congruence.
      apply auto_id_inj in Hid'. lia.
    + rewrite list_lookup_insert_eq in H2 by exact Hlt. injection H2 as <-.
      cbn [attribs] in Hv2. rewrite lookup_insert_eq in Hv2. injection Hv2 as <-.
      rewrite list_lookup_insert_ne in H1 by exact Hne1.
      destruct (Hk r1 e1 _ H1 Hv1) as (k & Hk' & Hid).
      assert (Hid' : "id" +:+ digits (N.of_nat (nextid st)) = "id" +:+ digits (N.of_nat k))
        by congruence.
      apply auto_id_inj in Hid'. lia.
    + rewrite list_lookup_insert_ne in H1 by exact Hne1.
      rewrite list_lookup_insert_ne in H2 by exact Hne2.
      eapply Hu; eauto.
Qed.

Lemma ids_unique_app st l n' d al ce an fs :
  ids_unique st -> nextid st <= n' ->
  Forall (fun e => attribs e !! "id" = None) l ->
  ids_unique (State (heap st ++ l) n' d al ce an fs).
Proof.
  intros [Hk Hu] Hn Hl.
  assert (Hold : forall (r : ref) e v,
             (heap st ++ l) !! r = Some e -> attribs e !! "id" = Some v ->
             heap st !! r = Some e).
  { intros r e v Hr Hv. apply lookup_app_Some in Hr as [Hr|[_ Hr]]; [exact Hr|].
    rewrite Forall_forall in Hl. apply list_elem_of_lookup_2 in Hr.
    rewrite (Hl e Hr) in Hv. discriminate Hv. }
  unfold ids_unique. cbn [heap nextid]. split.
  - intros r e v Hr Hv. destruct (Hk r e v (Hold r e v Hr Hv) Hv) as (k & Hk' & ->).
    exists k. split; [lia | reflexivity].
  - intros r1 r2 e1 e2 v H1 H2 Hv1 Hv2. eapply Hu; eauto.
Qed.

(** X5.  A call of [flash] on an existing element, with a start that is a
    float or an int that converts to one, adds exactly two objects to the
    store and changes nothing else in it, but for the id of the target:
    every object there before is still there, equal to what it was up to its
    id; an object other than the target, and any object that had an id
    already, is exactly what it was. *)
Theorem flash_changes_only_target_id
    (st : state) (el : ref) (e : element) (c : string) (start : num) (is_line : bool) :
  heap st !! el = Some e ->
  id_ok e ->
  is_Some (to_float start) ->
  exists a st',
    flash el c start is_line st = Some (a, st')
    /\ length (heap st') = length (heap st) + 2
    /\ forall (r : ref) e0,
         heap st !! r = Some e0 ->
         exists e1,
           heap st' !! r = Some e1
           /\ without_id e1 = without_id e0
           /\ (r <> el -> e1 = e0)
           /\ (forall v, attribs e0 !! "id" = Some v -> e1 = e0).
Proof.
  intros He Hid [x Hx]. eexists _, _. split; [apply (flash_eq _ _ _ _ _ _ e He Hid Hx)|].
  unfold flashed. cbn [heap]. split.
  - rewrite length_app, identified_heap_length. reflexivity.
  - intros r e0 Hr.
    destruct (identified_elements st el e r e0 He Hr) as (e1 & H1 & H2 & H3 & H4).
    exists e1. split; [now apply lookup_app_l_Some | auto].
Qed.

(** X6.  [flash], called with a start that is a float or an int that
    converts to one, keeps the ids of the store in order: if every id is an
    automatic id already given out and no two objects share one, the same
    holds after the call; the id of the target then names the target and
    nothing else, and both new steps refer to it by ["#" + id]. *)
Theorem flash_keeps_ids_unique
    (st : state) (el : ref) (e : element) (c : string) (start : num) (is_line : bool) :
  ids_unique st ->
  heap st !! el = Some e ->
  is_Some (to_float start) ->
  exists a st',
    flash el c start is_line st = Some (a, st')
    /\ ids_unique st'
    /\ (forall (r : ref) e1,
          heap st' !! r = Some e1 ->
          attribs e1 !! "id" = Some (VStr (id_of st e)) -> r = el)
    /\ Forall (fun s => attribs s !! "xlink:href" = Some (VStr ("#" +:+ id_of st e)))
              (drop (length (heap st)) (heap st')).
Proof.
  intros Hu He [x Hx]. pose proof (ids_unique_ok st el e Hu He) as Hid.
  eexists _, _. split; [apply (flash_eq _ _ _ _ _ _ e He Hid Hx)|].
  assert (Hu' : ids_unique (flashed st el e c x is_line)).
  { unfold flashed. apply ids_unique_app.
    - now apply identified_unique.
    - lia.
    - repeat constructor. }
  split; [exact Hu'|]. split.
  - intros r e1 Hr Hv.
    destruct (identified_lookup st el e He Hid) as (e' & He' & Hid').
    destruct Hu' as [_ Huu].
    apply (Huu r el e1 e' (VStr (id_of st e)) Hr); [|exact Hv|exact Hid'].
    unfold flashed. cbn [heap]. now apply lookup_app_l_Some.
  - unfold flashed. cbn [heap].
    rewrite <- (identified_heap_length st el e), drop_app_length.
    repeat constructor.
Qed.

End Ids.

(** ** The chaining loop on a step without a begin *)

Section ChainErrors.
Context {Lm : Libm}.

Lemma getitem_begin_None st (r : ref) :
  begin_of st r = None ->
  (let* v := getitem r "begin" in lift (as_str v)) st = None.
Proof.
  unfold begin_of, attr, getitem, bind, get_state, lift.
  destruct (heap st !! r) as [e|]; [|reflexivity].
  destruct (attribs e !! "begin") as [[s| |]|]; try reflexivity. discriminate.
Qed.

Lemma chain_begin_None final (anim : ref) st :
  begin_of st anim = None -> chain_begin final anim st = None.
Proof.
  intros H. pose proof (getitem_begin_None st anim H) as G.
  unfold chain_begin. unfold bind at 1.
  unfold bind at 1 in G.
  destruct (getitem anim "begin" st) as [[v st0]|]; [|reflexivity].
  unfold bind at 1. destruct (lift (as_str v) st0) as [[b0 st1]|]; [discriminate G | reflexivity].
Qed.

(** Either asking [final] for its id raises, or [final] is an element whose
    id is, or will be, a string. *)
Lemma get_id_cases (final : ref) st :
  get_id final st = None \/ exists fid, final_ok final fid st.
Proof.
  unfold get_id, final_ok, bind, get_state, lift.
  destruct (heap st !! final) as [ef|] eqn:E; [|now left].
  destruct (attribs ef !! "id") as [[s| |]|] eqn:Ei; try (now left).
  - right. exists (id_of st ef), ef. repeat split; auto.
    intros v Hv. rewrite Ei in Hv. injection Hv as <-. eauto.
  - right. exists (id_of st ef), ef. repeat split; auto.
    intros v Hv. rewrite Ei in Hv. discriminate Hv.
Qed.

Lemma chain_begin_no_id final (anim : ref) st :
  get_id final st = None -> chain_begin final anim st = None.
Proof.
  intros H. unfold chain_begin.
  destruct (begin_of st anim) as [b|] eqn:Hb.
  - destruct (begin_of_Some st anim b Hb) as (e & _ & _ & Hget).
    rewrite (bind_Some _ _ _ _ _ Hget). cbn [as_str]. rewrite bind_lift.
    unfold bind at 1. now rewrite H.
  - now apply chain_begin_None.
Qed.

Lemma chain_loop_raises final (l : list ref) :
  forall st,
    (exists r, r ∈ l /\ begin_of st r = None) ->
    for_each l (chain_begin final) st = None.
Proof.
  induction l as [|a l IH]; intros st (r & Hr & Hb).
  - inversion Hr.
  - cbn [for_each]. unfold bind at 1.
    destruct (begin_of st a) as [b|] eqn:Ha.
    + destruct (get_id_cases final st) as [Hn|[fid Hf]].
      * now rewrite (chain_begin_no_id final a st Hn).
      * destruct (chain_begin_eq final fid a st b Hf Ha) as (st1 & Hrun & _ & Hold & _).
        rewrite Hrun. apply IH. exists r. split.
        -- apply elem_of_cons in Hr as [->|Hr]; [congruence | exact Hr].
        -- rewrite Hold; [exact Hb | congruence].
    + now rewrite (chain_begin_None final a st Ha).
Qed.

(** X7.  If some registered step has no [begin] string (the object is
    missing, it has no [begin] attribute, or the attribute is not a string),
    the loop of lines 133-134 raises, whatever [final] is and wherever in
    [anims] the step stands: the steps before it cannot repair it. *)
Theorem chain_raises_on_missing_begin (st : state) (final : ref) (r : ref) :
  r ∈ anims st ->
  begin_of st r = None ->
  chain final st = None.
Proof.
  intros Hr Hb. unfold chain, bind, get_state.
  apply chain_loop_raises. eauto.
Qed.

End ChainErrors.

(** ** The claims at concrete inputs *)

(** The ring loop on six points with int coordinates, from the initial
    state, for the nodes 0 and 1. *)
Lemma ring_edge_rule_witness :
  let ring := [(Int 155, Int 65); (Int 130, Int 22); (Int 80, Int 22);
               (Int 55, Int 65); (Int 80, Int 108); (Int 130, Int 108)] in
  let st := init in
  let i := 0 in
  let j := 1 in
  length ring = 6 /\ i < j /\ j < 6
  /\ ring_edges ring st = Some (tt, with_lines st (map (ends ring) (ring_pairs 6)))
  /\ skip i j = spec_skip i j
  /\ ((i, j) ∈ ring_pairs 6 <-> spec_skip i j = false)
  /\ (forall p, p ∈ ring_pairs 6 -> fst p < snd p /\ snd p < 6)
  /\ attr (drawn_line (fst (ends ring (i, j))) (snd (ends ring (i, j)))) "stroke"
     = Some edge_color
  /\ attribs (drawn_line (fst (ends ring (i, j))) (snd (ends ring (i, j)))) !! "stroke-width"
     = Some (VNum edge_stroke).
Proof.
  intros ring st i j.
  assert (H1 : length ring = 6) by reflexivity.
  assert (H2 : i < j) by (unfold i, j; lia).
  assert (H3 : j < 6) by (unfold j; lia).
  split; [exact H1|]. split; [exact H2|]. split; [exact H3|].
  exact (ring_edge_rule ring st i j H1 H2 H3).
Defined.

(** The scenario of the specification: a grey circle, without an id,
    flashed from time 0.0; the steps begin at ["+0.00s"] and ["+1.00s"]. *)
Lemma flash_registers_two_steps_witness :
  let st := State [Element "circle" (<["fill" := VStr n]> ∅)] 1
                  (Drawing_init None None) [] [] [] [] in
  let element := 0 in
  let e := Element "circle" (<["fill" := VStr n]> ∅) in
  let original_color := n in
  let start_time := Float 0 in
  let x := 0%float in
  let is_stroke := false in
  heap st !! element = Some e
  /\ id_ok e
  /\ to_float start_time = Some x
  /\ begin_at x = "+0.00s"
  /\ begin_at (x + 1) = "+1.00s"
  /\ exists st' stepA stepB e',
    let a := length (heap st) in
    let prop := if is_stroke then "stroke" else "fill" in
    let href := "#" +:+ id_of st e in
    flash element original_color start_time is_stroke st = Some (S a, st')
    /\ stepA = step prop href original_color g (begin_at x) "1.0s"
    /\ stepB = step prop href g original_color (begin_at (x + 1)) "1.2s"
    /\ heap st' = heap (identified st element e) ++ [stepA; stepB]
    /\ heap st' !! a = Some stepA
    /\ heap st' !! S a = Some stepB
    /\ elements (dwg st') = elements (dwg st) ++ [a; S a]
    /\ anims st' = anims st ++ [a; S a]
    /\ all_lines st' = all_lines st
    /\ circle_elems st' = circle_elems st
    /\ files st' = files st
    /\ heap st' !! element = Some e'
    /\ attr e' "id" = Some (id_of st e)
    /\ without_id e' = without_id e
    /\ (forall y q, exact y = Some q ->
          exists t,
            seconds (begin_at y) = Some t
            /\ (Qabs (t - q) <= 1 # 200)%Q
            /\ ((Qabs (t - q) == 1 # 200)%Q ->
                exists c : Z, (t == c # 100)%Q /\ Z.even c = true))
    /\ (forall y, exact y = None ->
          begin_at y = "+infs" \/ begin_at y = "+-infs" \/ begin_at y = "+nans").
Proof.
  intros st element e original_color start_time x is_stroke.
  assert (H1 : heap st !! element = Some e) by reflexivity.
  assert (H2 : id_ok e).
  { intros v Hv. unfold e in Hv. cbn [attribs] in Hv.
    rewrite lookup_insert_ne in Hv by discriminate.
    rewrite lookup_empty in Hv. discriminate Hv. }
  assert (H3 : to_float start_time = Some x) by reflexivity.
  split; [exact H1|]. split; [exact H2|]. split; [exact H3|].
  split; [reflexivity|]. split; [reflexivity|].
  exact (flash_registers_two_steps st element e original_color start_time x is_stroke
                                   H1 H2 H3).
Defined.

(** Two steps of one flash, the second being the final one. *)
Lemma chain_rewrites_every_step_witness :
  let A := step "fill" "#id1" n g "+0.00s" "1.0s" in
  let B := step "fill" "#id1" g n "+1.00s" "1.2s" in
  let st := State [A; B] 2 (Drawing_init None None) [] [] [0; 1] [] in
  let final := 1 in
  let fid := "id2" in
  NoDup (anims st)
  /\ final_ok final fid st
  /\ (forall r, r ∈ anims st -> is_Some (begin_of st r))
  /\ exists st',
    chain final st = Some (tt, st')
    /\ anims st' = anims st
    /\ elements (dwg st') = elements (dwg st)
    /\ final_ok final fid st'
    /\ (forall r b, r ∈ anims st -> begin_of st r = Some b ->
          begin_of st' r = Some (b +:+ "; " +:+ fid +:+ ".end" +:+ b)
          /\ contains (fid +:+ ".end") (b +:+ "; " +:+ fid +:+ ".end" +:+ b))
    /\ (forall r : ref, r ∉ anims st -> begin_of st' r = begin_of st r).
Proof.
  intros A B st final fid.
  assert (H1 : NoDup (anims st)).
  { unfold st. cbn [anims]. apply NoDup_cons. split.
    - intros H. apply list_elem_of_singleton in H. discriminate H.
    - apply NoDup_singleton. }
  assert (H2 : final_ok final fid st).
  { exists B. split; [reflexivity|]. split.
    - intros v Hv. unfold B in Hv. rewrite step_id in Hv. discriminate Hv.
    - unfold id_of, B. rewrite step_id. reflexivity. }
  assert (H3 : forall r, r ∈ anims st -> is_Some (begin_of st r)).
  { intros r Hr. unfold st in Hr. cbn [anims] in Hr.
    apply elem_of_cons in Hr as [->|Hr].
    - exists "+0.00s". unfold begin_of, st. cbn [heap lookup list_lookup]. apply step_begin.
    - apply list_elem_of_singleton in Hr as ->.
      exists "+1.00s". unfold begin_of, st. cbn [heap lookup list_lookup]. apply step_begin. }
  split; [exact H1|]. split; [exact H2|]. split; [exact H3|].
  exact (chain_rewrites_every_step st final fid H1 H2 H3).
Defined.

(** ** The further properties at concrete inputs *)

(** A grey circle without an id, flashed from time 0. *)
Lemma flash_changes_only_target_id_witness :
  let e := Element "circle" (<["fill" := VStr n]> ∅) in
  let st := State [e] 1 (Drawing_init None None) [] [] [] [] in
  let el : ref := 0 in
  let c := n in
  let start := Int 0 in
  let is_line := false in
  heap st !! el = Some e
  /\ id_ok e
  /\ is_Some (to_float start)
  /\ exists a st',
       flash el c start is_line st = Some (a, st')
       /\ length (heap st') = length (heap st) + 2
       /\ forall (r : ref) e0,
            heap st !! r = Some e0 ->
            exists e1,
              heap st' !! r = Some e1
              /\ without_id e1 = without_id e0
              /\ (r <> el -> e1 = e0)
              /\ (forall v, attribs e0 !! "id" = Some v -> e1 = e0).
Proof.
  intros e st el c start is_line.
  assert (H1 : heap st !! el = Some e) by reflexivity.
  assert (H2 : id_ok e).
  { intros v Hv. unfold e in Hv. cbn [attribs] in Hv.
    rewrite lookup_insert_ne in Hv by discriminate.
    rewrite lookup_empty in Hv. discriminate Hv. }
  assert (H3 : is_Some (to_float start)) by (exists 0%float; reflexivity).
  split; [exact H1|]. split; [exact H2|]. split; [exact H3|].
  exact (flash_changes_only_target_id st el e c start is_line H1 H2 H3).
Defined.

(** A grey circle without an id beside a line that holds the id [id1]. *)
Lemma flash_keeps_ids_unique_witness :
  let l := Element "line" (<["id" := VStr "id1"]> ∅) in
  let e := Element "circle" (<["fill" := VStr n]> ∅) in
  let st := State [l; e] 2 (Drawing_init None None) [] [] [] [] in
  let el : ref := 1 in
  let c := n in
  let start := Float 0.5 in
  let is_line := false in
  ids_unique st
  /\ heap st !! el = Some e
  /\ is_Some (to_float start)
  /\ exists a st',
       flash el c start is_line st = Some (a, st')
       /\ ids_unique st'
       /\ (forall (r : ref) e1,
             heap st' !! r = Some e1 ->
             attribs e1 !! "id" = Some (VStr (id_of st e)) -> r = el)
       /\ Forall (fun s => attribs s !! "xlink:href" = Some (VStr ("#" +:+ id_of st e)))
                 (drop (length (heap st)) (heap st')).
Proof.
  intros l e st el c start is_line.
  assert (H0 : forall (r : ref) e0 v,
             heap st !! r = Some e0 -> attribs e0 !! "id" = Some v ->
             r = 0 /\ v = VStr "id1").
  { intros r e0 v Hr Hv. unfold st in Hr. cbn [heap] in Hr.
    destruct r as [|[|r]]; cbn [lookup list_lookup] in Hr.
    - injection Hr as <-. unfold l in Hv. cbn [attribs] in Hv.
      rewrite lookup_insert_eq in Hv. injection Hv as <-. now split.
    - injection Hr as <-. unfold e in Hv. cbn [attribs] in Hv.
      rewrite lookup_insert_ne in Hv by discriminate.
      rewrite lookup_empty in Hv. discriminate Hv.
    - discriminate Hr. }
  assert (H1 : ids_unique st).
  { split.
    - intros r e0 v Hr Hv. destruct (H0 r e0 v Hr Hv) as [_ ->].
      exists 1. split; [unfold st; cbn [nextid]; lia | reflexivity].
    - intros r1 r2 e1 e2 v Hr1 Hr2 Hv1 Hv2.
      destruct (H0 r1 e1 v Hr1 Hv1) as [-> _]. destruct (H0 r2 e2 v Hr2 Hv2) as [-> _].
      reflexivity. }
  assert (H2 : heap st !! el = Some e) by reflexivity.
  assert (H3 : is_Some (to_float start)) by (exists 0.5%float; reflexivity).
  split; [exact H1|]. split; [exact H2|]. split; [exact H3|].
  exact (flash_keeps_ids_unique st el e c start is_line H1 H2 H3).
Defined.

(** A registered step that has no [begin] attribute. *)
Lemma chain_raises_on_missing_begin_witness :
  let st := State [Element "animate" ∅] 1 (Drawing_init None None)
                  [] [] [0] [] in
  let final : ref := 0 in
  let r : ref := 0 in
  r ∈ anims st /\ begin_of st r = None /\ chain final st = None.
Proof.
  intros st final r.
  assert (H1 : r ∈ anims st) by (apply list_elem_of_here).
  assert (H2 : begin_of st r = None) by reflexivity.
  split; [exact H1|]. split; [exact H2|].
  exact (chain_raises_on_missing_begin st final r H1 H2).
Defined.

(** ** Where the claims fail as stated *)

(** C2 as stated fails: with the int [10 ** 400] as start time the call
    raises (OverflowError on line 100) and registers nothing. *)
Lemma flash_raises_on_huge_start :
  let e := Element "circle" (<["fill" := VStr n]> ∅) in
  let st := State [e] 1 (Drawing_init None None) [] [] [] [] in
  heap st !! 0 = Some e
  /\ to_float (Int (10 ^ 400)) = None
  /\ flash 0 n (Int (10 ^ 400)) false st = None.
Proof.
  intros e st.
  assert (H1 : heap st !! 0 = Some e) by reflexivity.
  assert (H2 : id_ok e).
  { intros v Hv. unfold e in Hv. cbn [attribs] in Hv.
    rewrite lookup_insert_ne in Hv by discriminate.
    rewrite lookup_empty in Hv. discriminate Hv. }
  assert (H3 : to_float (Int (10 ^ 400)) = None) by (vm_compute; reflexivity).
  split; [exact H1|]. split; [exact H3|].
  exact (flash_raises 0 n (Int (10 ^ 400)) false st e H1 H2 H3).
Qed.

(** C4 as stated fails: whatever the platform's [cos] and [sin], the second
    file holds thirty-two animation entries, not thirty. *)
Lemma thirty_entries_refuted :
  length flash_calls = 16
  /\ forall Lm : Libm, exists t d2,
       trace = Some t
       /\ animated_doc t = Some d2
       /\ length (animations d2) = 32
       /\ length (animations d2) <> 30.
Proof.
  split; [reflexivity|]. intros Lm.
  destruct trace_runs as [t E].
  destruct (saved_files t E) as (d1 & d2 & _ & _ & H2).
  exists t, d2. pose proof (animation_count t d2 E H2) as H.
  repeat split; try assumption. rewrite H. discriminate.
Qed.


(** C9 as stated fails: whatever the platform's [cos] and [sin], the first
    element of the first file, the left fan edge without an id, is not an
    element of the second file. *)
Lemma first_save_not_contained :
  exists k, k = 0
  /\ forall Lm : Libm, exists t d1 d2 e1,
       trace = Some t
       /\ static_doc t = Some d1 /\ animated_doc t = Some d2
       /\ doc_elements d1 !! k = Some e1
       /\ e1 ∈ doc_elements d1
       /\ e1 ∉ doc_elements d2.
Proof. exists 0. split; [reflexivity|]. intros Lm. exact first_line_changed. Qed.
